(** * Black-Scholes pricing and the spot/volatility sweeps of streamlit_app.py

    The development embeds three pieces of [streamlit_app.py]:
    - [BlackScholes.calculate_prices] (lines 56-85), the closed-form pricer;
    - [plot_heatmap] (lines 88-110), the price sweep over a grid;
    - [plot_price_diff_colormap] (lines 113-136), the sweep of price minus a
      per-row purchase price.
    - the script around them (lines 163-166 and 183-240): the four ranges
      built with [np.linspace], the model priced on line 184 and the four
      sweeps, as a function of the values the sidebar widgets return.

    Number model.  Python and numpy floats are read as real numbers with exact
    arithmetic: rounding, overflow and underflow are not represented (a float
    can round or underflow onto a bound that the real number only approaches,
    so bounds and orders of computed values are stated non-strictly).
    [scipy.stats.norm] is the standard normal law: [norm.pdf] is its density
    and [norm.cdf] its distribution function.

    The functions are embedded twice.  [calculate_prices], [plot_heatmap],
    [plot_price_diff_colormap] and [script] follow the runs in which every
    value is a real number: an operation that has no real value (division by
    zero, logarithm of a non-positive number, square root of a negative
    number) yields [None] there, and such a run is not followed any further.
    [calculate_prices_np], [plot_heatmap_np], [plot_price_diff_colormap_np]
    and [script_np] follow every run: where Python raises
    [ZeroDivisionError] (float by float) they stop, and where numpy carries on
    with an infinity or nan they do so too, by the rules of IEEE 754.  On the
    runs of the first kind the two agree ([calculate_prices_np_in_domain],
    [grid_price_np_in_domain]). *)

From Stdlib Require Import Reals Lra Lia String List Arith.
Import ListNotations.
Open Scope R_scope.

(** ** A small error monad on [option] *)

Definition bind {A B : Type} (m : option A) (k : A -> option B) : option B :=
  match m with
  | Some a => k a
  | None => None
  end.

Notation "x <- m ;; k" := (bind m (fun x => k))
  (at level 61, m at next level, right associativity).

(** ** Numeric primitives *)

(** [x / y] on floats. *)
Definition py_div (x y : R) : option R :=
  if Req_dec_T y 0 then None else Some (x / y).

(** [numpy.log]. *)
Definition np_log (x : R) : option R :=
  if Rlt_dec 0 x then Some (ln x) else None.

(** [numpy.sqrt]. *)
Definition np_sqrt (x : R) : option R :=
  if Rle_dec 0 x then Some (sqrt x) else None.

(** [numpy.exp]. *)
Definition np_exp (x : R) : R := exp x.

(** [scipy.stats.norm.pdf]: [exp(-x**2/2) / sqrt(2*pi)]. *)
Definition norm_pdf (x : R) : R := exp (- x ^ 2 / 2) / sqrt (2 * PI).

Lemma norm_pdf_continuity : continuity norm_pdf.
Proof. unfold norm_pdf. reg. Qed.

Lemma norm_pdf_integrable (a b : R) : Riemann_integrable norm_pdf a b.
Proof.
  destruct (Rle_dec a b) as [Hab | Hab].
  - apply continuity_implies_RiemannInt; [exact Hab |].
    intros x _. apply norm_pdf_continuity.
  - apply RiemannInt_P1, continuity_implies_RiemannInt; [lra |].
    intros x _. apply norm_pdf_continuity.
Qed.

(** [scipy.stats.norm.cdf]: one half plus the integral of the density from
    [0] to [x] (that is, [(1 + erf (x / sqrt 2)) / 2]). *)
Definition norm_cdf (x : R) : R :=
  1 / 2 + RiemannInt (norm_pdf_integrable 0 x).

(** ** The pricer *)

(** The constructor arguments of [BlackScholes.__init__]. *)
Record BlackScholes : Type := mkBlackScholes {
  time_to_maturity : R;
  strike : R;
  current_price : R;
  volatility : R;
  interest_rate : R
}.

(** The attributes [calculate_prices] stores on [self]. *)
Record Priced : Type := mkPriced {
  call_price : R;
  put_price : R;
  call_delta : R;
  put_delta : R;
  call_gamma : R;
  put_gamma : R
}.

(** [BlackScholes.calculate_prices]: the attributes written to [self],
    paired with the returned tuple [(call_price, put_price)]. *)
Definition calculate_prices (self : BlackScholes) : option (Priced * (R * R)) :=
  let time_to_maturity := time_to_maturity self in
  let strike := strike self in
  let current_price := current_price self in
  let volatility := volatility self in
  let interest_rate := interest_rate self in
  q <- py_div current_price strike ;;
  lg <- np_log q ;;
  sqrt_t <- np_sqrt time_to_maturity ;;
  d1 <- py_div (lg + (interest_rate + 0.5 * volatility ^ 2) * time_to_maturity)
               (volatility * sqrt_t) ;;
  let d2 := d1 - volatility * sqrt_t in
  let call_price :=
    current_price * norm_cdf d1
    - strike * np_exp (- (interest_rate * time_to_maturity)) * norm_cdf d2 in
  let put_price :=
    strike * np_exp (- (interest_rate * time_to_maturity)) * norm_cdf (- d2)
    - current_price * norm_cdf (- d1) in
  let call_delta := norm_cdf d1 in
  let put_delta := 1 - norm_cdf d1 in
  call_gamma <- py_div (norm_pdf d1) (strike * volatility * sqrt_t) ;;
  let put_gamma := call_gamma in
  Some (mkPriced call_price put_price call_delta put_delta call_gamma put_gamma,
        (call_price, put_price)).

(** The valid inputs: positive spot, strike, time to maturity and
    volatility; any interest rate. *)
Definition valid (self : BlackScholes) : Prop :=
  0 < current_price self /\ 0 < strike self /\
  0 < time_to_maturity self /\ 0 < volatility self.

(** ** The sweeps *)

(** A float stored in a grid: a real number, or [None] when computing it
    left the real numbers (numpy then stores [inf], [nan], or what it reaches
    through them). *)
Definition cell : Type := option R.

(** A numpy 2-D array, row by row. *)
Definition matrix : Type := list (list cell).

Inductive exn : Type := IndexError.

Inductive result (A : Type) : Type :=
| Ok (a : A)
| Raise (e : exn).
Arguments Ok {A} a.
Arguments Raise {A} e.

(** [numpy.zeros((m, n))]. *)
Definition zeros (m n : nat) : matrix := repeat (repeat (Some 0) n) m.

Fixpoint list_set {A : Type} (l : list A) (k : nat) (v : A) : list A :=
  match l, k with
  | [], _ => []
  | _ :: t, O => v :: t
  | h :: t, S k' => h :: list_set t k' v
  end.

(** [a[i, j] = v] for indices inside the array (the loops never leave it). *)
Definition set_cell (a : matrix) (i j : nat) (v : cell) : matrix :=
  match nth_error a i with
  | Some row => list_set a i (list_set row j v)
  | None => a
  end.

(** [a[i][j]]. *)
Definition get_cell (a : matrix) (i j : nat) : option cell :=
  match nth_error a i with
  | Some row => nth_error row j
  | None => None
  end.

(** [for k, x in enumerate(xs): body], started at index [k], threading the
    array and stopping at the first exception. *)
Fixpoint for_enumerate (body : nat -> R -> matrix -> result matrix)
    (k : nat) (xs : list R) (a : matrix) : result matrix :=
  match xs with
  | [] => Ok a
  | x :: rest =>
      match body k x a with
      | Ok a' => for_enumerate body (S k) rest a'
      | Raise e => Raise e
      end
  end.

(** [bs_temp.call_price if option_type == "call" else bs_temp.put_price],
    read after [bs_temp.calculate_prices()]. *)
Definition predicted_price (option_type : string)
    (priced : option (Priced * (R * R))) : cell :=
  match priced with
  | Some (attrs, _) =>
      Some (if String.eqb option_type "call" then call_price attrs
            else put_price attrs)
  | None => None
  end.

(** [plot_heatmap], up to the array handed to [sns.heatmap].  The ranges are
    numpy arrays (the script builds them with [np.linspace]). *)
Definition plot_heatmap (bs_model : BlackScholes) (spot_range vol_range : list R)
    (strike : R) (option_type : string) : result matrix :=
  let price_diffs := zeros (length vol_range) (length spot_range) in
  for_enumerate (fun i vol =>
    for_enumerate (fun j spot price_diffs =>
      let bs_temp := mkBlackScholes (time_to_maturity bs_model) strike spot vol
                                    (interest_rate bs_model) in
      let predicted := predicted_price option_type (calculate_prices bs_temp) in
      Ok (set_cell price_diffs i j predicted)) 0%nat spot_range)
    0%nat vol_range price_diffs.

(** [plot_price_diff_colormap], up to the array handed to [sns.heatmap]. *)
Definition plot_price_diff_colormap (bs_model : BlackScholes)
    (spot_range vol_range purchase_price_range : list R)
    (option_type : string) : result matrix :=
  let price_diffs := zeros (length vol_range) (length spot_range) in
  for_enumerate (fun i vol =>
    for_enumerate (fun j spot price_diffs =>
      let bs_temp := mkBlackScholes (time_to_maturity bs_model)
                                    (strike bs_model) spot vol
                                    (interest_rate bs_model) in
      let predicted := predicted_price option_type (calculate_prices bs_temp) in
      match nth_error purchase_price_range i with
      | Some purchase =>
          Ok (set_cell price_diffs i j
                (option_map (fun p => p - purchase) predicted))
      | None => Raise IndexError
      end) 0%nat spot_range)
    0%nat vol_range price_diffs.

(** ** Notions the statements use *)

(** The expressions of lines 71-75 as functions of the five inputs
    (time to maturity, strike, spot, volatility, rate). *)
Definition bs_d1 (T K spot sigma r : R) : R :=
  (ln (spot / K) + (r + 0.5 * sigma ^ 2) * T) / (sigma * sqrt T).

Definition bs_d2 (T K spot sigma r : R) : R :=
  bs_d1 T K spot sigma r - sigma * sqrt T.

Definition bs_call (T K spot sigma r : R) : R :=
  spot * norm_cdf (bs_d1 T K spot sigma r)
  - K * exp (- (r * T)) * norm_cdf (bs_d2 T K spot sigma r).

Definition bs_put (T K spot sigma r : R) : R :=
  K * exp (- (r * T)) * norm_cdf (- bs_d2 T K spot sigma r)
  - spot * norm_cdf (- bs_d1 T K spot sigma r).

(** The inputs on which every operation of [calculate_prices] has a real
    value. *)
Definition in_domain (self : BlackScholes) : Prop :=
  strike self <> 0 /\ 0 < current_price self / strike self /\
  0 < time_to_maturity self /\ volatility self <> 0.

(** The value of [d1] (line 71) on [self]. *)
Definition d1 (self : BlackScholes) : R :=
  bs_d1 (time_to_maturity self) (strike self) (current_price self)
        (volatility self) (interest_rate self).

(** The attributes [calculate_prices] stores, in closed form (lines 74-83). *)
Definition priced_of (self : BlackScholes) : Priced :=
  let T := time_to_maturity self in
  let K := strike self in
  let spot := current_price self in
  let sigma := volatility self in
  let r := interest_rate self in
  mkPriced (bs_call T K spot sigma r) (bs_put T K spot sigma r)
           (norm_cdf (d1 self)) (1 - norm_cdf (d1 self))
           (norm_pdf (d1 self) / (K * sigma * sqrt T))
           (norm_pdf (d1 self) / (K * sigma * sqrt T)).

(** An attribute computed by [calculate_prices], as a function of the spot
    price with the other four inputs of [self] kept ([0] where nothing is
    computed). *)
Definition attr_at_spot (attr : Priced -> R) (self : BlackScholes) (s : R) : R :=
  match calculate_prices
          (mkBlackScholes (time_to_maturity self) (strike self) s
                          (volatility self) (interest_rate self)) with
  | Some (attrs, _) => attr attrs
  | None => 0
  end.

(** The cell both sweeps price at one grid point, for strike [K]. *)
Definition grid_price (bs_model : BlackScholes) (K : R) (option_type : string)
    (vol spot : R) : cell :=
  predicted_price option_type
    (calculate_prices (mkBlackScholes (time_to_maturity bs_model) K spot vol
                                      (interest_rate bs_model))).

(** The row the difference sweep writes at index [k]. *)
Definition diff_row (bs_model : BlackScholes)
    (spot_range purchase_price_range : list R) (option_type : string)
    (k : nat) (vol : R) : list cell :=
  map (fun spot =>
         option_map (fun p => p - nth k purchase_price_range 0)
           (grid_price bs_model (strike bs_model) option_type vol spot))
      spot_range.

(** [has_shape a m n]: [a] has [m] rows of [n] entries each. *)
Definition has_shape (a : matrix) (m n : nat) : Prop :=
  length a = m /\ Forall (fun row => length row = n) a.

(** ** The script around the three functions *)

(** [numpy.linspace(start, stop, num)]: [num] evenly spaced samples, the
    [i]-th being [start + i * (stop - start) / (num - 1)]. *)
Definition linspace (start stop : R) (num : nat) : list R :=
  map (fun i => start + INR i * ((stop - start) / INR (num - 1))) (seq 0 num).

(** The values the sidebar widgets return (lines 146-161). *)
Record Sidebar : Type := mkSidebar {
  sb_current_price : R;
  sb_strike : R;
  sb_time_to_maturity : R;
  sb_volatility : R;
  sb_interest_rate : R;
  spot_min : R;
  spot_max : R;
  vol_min : R;
  vol_max : R;
  purchase_min_call : R;
  purchase_max_call : R;
  purchase_min_put : R;
  purchase_max_put : R
}.


Definition bind_result {A B : Type} (m : result A) (k : A -> result B) :
    result B :=
  match m with
  | Ok a => k a
  | Raise e => Raise e
  end.

Notation "x <-! m ;; k" := (bind_result m (fun x => k))
  (at level 61, m at next level, right associativity).

(** The model built on line 183 from the sidebar. *)
Definition sidebar_model (w : Sidebar) : BlackScholes :=
  mkBlackScholes (sb_time_to_maturity w) (sb_strike w) (sb_current_price w)
                 (sb_volatility w) (sb_interest_rate w).



(** The values the widgets start from (lines 146-161). *)
Definition default_sidebar : Sidebar :=
  mkSidebar 100 100 1 0.2 0.05 80 120 0.1 0.3 8 12 8 12.

(** ** The same functions on numpy's floats *)

(** A float as numpy computes with it: a real number ([Real 0] is the
    positive zero), the negative zero, an infinity, or nan.  Arithmetic on
    real values stays exact; what is added to the real-number reading above
    is what numpy does where an operation has no real value: it goes on with
    an infinity or nan (and a warning), by the rules of IEEE 754. *)
Inductive float64 : Type :=
| Real (x : R)
| NegZero
| PosInf
| NegInf
| NaN.

(** The sign bit. *)
Definition negative (a : float64) : bool :=
  match a with
  | Real x => if Rlt_dec x 0 then true else false
  | NegZero | NegInf => true
  | PosInf | NaN => false
  end.

Definition is_zero (a : float64) : bool :=
  match a with
  | Real x => if Req_dec_T x 0 then true else false
  | NegZero => true
  | _ => false
  end.

Definition zero (neg : bool) : float64 := if neg then NegZero else Real 0.

Definition infinity (neg : bool) : float64 := if neg then NegInf else PosInf.

(** The real value of a finite float. *)
Definition value (a : float64) : R :=
  match a with
  | Real x => x
  | _ => 0
  end.

(** [-a]. *)
Definition fopp (a : float64) : float64 :=
  match a with
  | Real x => if Req_dec_T x 0 then NegZero else Real (- x)
  | NegZero => Real 0
  | PosInf => NegInf
  | NegInf => PosInf
  | NaN => NaN
  end.

(** [a + b]. *)
Definition fadd (a b : float64) : float64 :=
  match a, b with
  | NaN, _ | _, NaN => NaN
  | PosInf, NegInf | NegInf, PosInf => NaN
  | PosInf, _ | _, PosInf => PosInf
  | NegInf, _ | _, NegInf => NegInf
  | NegZero, NegZero => NegZero
  | _, _ => Real (value a + value b)
  end.

(** [a - b]. *)
Definition fsub (a b : float64) : float64 := fadd a (fopp b).

(** [a * b]. *)
Definition fmul (a b : float64) : float64 :=
  let neg := xorb (negative a) (negative b) in
  match a, b with
  | NaN, _ | _, NaN => NaN
  | (PosInf | NegInf), _ => if is_zero b then NaN else infinity neg
  | _, (PosInf | NegInf) => if is_zero a then NaN else infinity neg
  | _, _ => if orb (is_zero a) (is_zero b) then zero neg else Real (value a * value b)
  end.

(** [a / b] on numpy floats: dividing by a zero gives an infinity or nan. *)
Definition fdiv (a b : float64) : float64 :=
  let neg := xorb (negative a) (negative b) in
  match a, b with
  | NaN, _ | _, NaN => NaN
  | (PosInf | NegInf), (PosInf | NegInf) => NaN
  | (PosInf | NegInf), _ => infinity neg
  | _, (PosInf | NegInf) => zero neg
  | _, _ =>
      if is_zero b then (if is_zero a then NaN else infinity neg)
      else if is_zero a then zero neg
      else Real (value a / value b)
  end.

(** [numpy.log]. *)
Definition flog (a : float64) : float64 :=
  match a with
  | Real x =>
      if Rlt_dec 0 x then Real (ln x)
      else if Req_dec_T x 0 then NegInf else NaN
  | NegZero => NegInf
  | PosInf => PosInf
  | NegInf | NaN => NaN
  end.

(** [numpy.sqrt]. *)
Definition fsqrt (a : float64) : float64 :=
  match a with
  | Real x => if Rle_dec 0 x then Real (sqrt x) else NaN
  | NegZero => NegZero
  | PosInf => PosInf
  | NegInf | NaN => NaN
  end.

(** [numpy.exp]. *)
Definition fexp (a : float64) : float64 :=
  match a with
  | Real x => Real (exp x)
  | NegZero => Real 1
  | PosInf => PosInf
  | NegInf => Real 0
  | NaN => NaN
  end.

(** [scipy.stats.norm.cdf]. *)
Definition fcdf (a : float64) : float64 :=
  match a with
  | Real x => Real (norm_cdf x)
  | NegZero => Real (norm_cdf 0)
  | PosInf => Real 1
  | NegInf => Real 0
  | NaN => NaN
  end.

(** [scipy.stats.norm.pdf]. *)
Definition fpdf (a : float64) : float64 :=
  match a with
  | Real x => Real (norm_pdf x)
  | NegZero => Real (norm_pdf 0)
  | PosInf | NegInf => Real 0
  | NaN => NaN
  end.

(** The attributes [calculate_prices] stores on [self], as floats. *)
Record PricedNp : Type := mkPricedNp {
  call_price_np : float64;
  put_price_np : float64;
  call_delta_np : float64;
  put_delta_np : float64;
  call_gamma_np : float64;
  put_gamma_np : float64
}.

(** [BlackScholes.calculate_prices] on floats, with [current_price] a numpy
    float as inside the sweeps: every operation is numpy's and nothing
    raises. *)
Definition calculate_prices_np (self : BlackScholes) :
    PricedNp * (float64 * float64) :=
  let time_to_maturity := Real (time_to_maturity self) in
  let strike := Real (strike self) in
  let current_price := Real (current_price self) in
  let volatility := Real (volatility self) in
  let interest_rate := Real (interest_rate self) in
  let d1 :=
    fdiv (fadd (flog (fdiv current_price strike))
               (fmul (fadd interest_rate
                           (fmul (Real 0.5) (fmul volatility volatility)))
                     time_to_maturity))
         (fmul volatility (fsqrt time_to_maturity)) in
  let d2 := fsub d1 (fmul volatility (fsqrt time_to_maturity)) in
  let call_price :=
    fsub (fmul current_price (fcdf d1))
         (fmul (fmul strike (fexp (fopp (fmul interest_rate time_to_maturity))))
               (fcdf d2)) in
  let put_price :=
    fsub (fmul (fmul strike (fexp (fopp (fmul interest_rate time_to_maturity))))
               (fcdf (fopp d2)))
         (fmul current_price (fcdf (fopp d1))) in
  let call_delta := fcdf d1 in
  let put_delta := fsub (Real 1) (fcdf d1) in
  let call_gamma :=
    fdiv (fpdf d1) (fmul (fmul strike volatility) (fsqrt time_to_maturity)) in
  let put_gamma := call_gamma in
  (mkPricedNp call_price put_price call_delta put_delta call_gamma put_gamma,
   (call_price, put_price)).

(** The same between Python floats, as on line 184: there
    [current_price / strike] raises [ZeroDivisionError] for a zero [strike]
    ([None]), and is the same float otherwise. *)
Definition calculate_prices_py (self : BlackScholes) :
    option (PricedNp * (float64 * float64)) :=
  if Req_dec_T (strike self) 0 then None else Some (calculate_prices_np self).

(** A float as a grid cell: its real value, or [None] for an infinity or
    nan. *)
Definition to_cell (a : float64) : cell :=
  match a with
  | Real x => Some x
  | NegZero => Some 0
  | PosInf | NegInf | NaN => None
  end.

(** [bs_temp.call_price if option_type == "call" else bs_temp.put_price]. *)
Definition predicted_price_np (option_type : string)
    (priced : PricedNp * (float64 * float64)) : float64 :=
  let (attrs, _) := priced in
  if String.eqb option_type "call" then call_price_np attrs
  else put_price_np attrs.

(** [plot_heatmap] on floats. *)
Definition plot_heatmap_np (bs_model : BlackScholes)
    (spot_range vol_range : list R) (strike : R) (option_type : string) :
    result matrix :=
  let price_diffs := zeros (length vol_range) (length spot_range) in
  for_enumerate (fun i vol =>
    for_enumerate (fun j spot price_diffs =>
      let bs_temp := mkBlackScholes (time_to_maturity bs_model) strike spot vol
                                    (interest_rate bs_model) in
      let predicted :=
        predicted_price_np option_type (calculate_prices_np bs_temp) in
      Ok (set_cell price_diffs i j (to_cell predicted))) 0%nat spot_range)
    0%nat vol_range price_diffs.

(** [plot_price_diff_colormap] on floats. *)
Definition plot_price_diff_colormap_np (bs_model : BlackScholes)
    (spot_range vol_range purchase_price_range : list R)
    (option_type : string) : result matrix :=
  let price_diffs := zeros (length vol_range) (length spot_range) in
  for_enumerate (fun i vol =>
    for_enumerate (fun j spot price_diffs =>
      let bs_temp := mkBlackScholes (time_to_maturity bs_model)
                                    (strike bs_model) spot vol
                                    (interest_rate bs_model) in
      let predicted :=
        predicted_price_np option_type (calculate_prices_np bs_temp) in
      match nth_error purchase_price_range i with
      | Some purchase =>
          Ok (set_cell price_diffs i j (to_cell (fsub predicted (Real purchase))))
      | None => Raise IndexError
      end) 0%nat spot_range)
    0%nat vol_range price_diffs.

(** [a] is a finite float of real value [x]. *)
Definition finite (a : float64) (x : R) : Prop :=
  a = Real x \/ (a = NegZero /\ x = 0).

(** The float [d1] of line 71. *)
Definition np_d1 (T K spot sigma r : R) : float64 :=
  fdiv (fadd (flog (fdiv (Real spot) (Real K)))
             (fmul (fadd (Real r) (fmul (Real 0.5) (fmul (Real sigma) (Real sigma))))
                   (Real T)))
       (fmul (Real sigma) (fsqrt (Real T))).

(** The prices of [calculate_prices_np], from [d1]. *)
Definition np_prices (T K spot sigma r : R) (d1 : float64) : float64 * float64 :=
  let d2 := fsub d1 (fmul (Real sigma) (fsqrt (Real T))) in
  (fsub (fmul (Real spot) (fcdf d1))
        (fmul (fmul (Real K) (fexp (fopp (fmul (Real r) (Real T))))) (fcdf d2)),
   fsub (fmul (fmul (Real K) (fexp (fopp (fmul (Real r) (Real T)))))
              (fcdf (fopp d2)))
        (fmul (Real spot) (fcdf (fopp d1)))).

(** The float both sweeps price at one grid point, for strike [K]. *)
Definition grid_price_np (bs_model : BlackScholes) (K : R) (option_type : string)
    (vol spot : R) : float64 :=
  predicted_price_np option_type
    (calculate_prices_np (mkBlackScholes (time_to_maturity bs_model) K spot vol
                                         (interest_rate bs_model))).

(** The row the difference sweep writes at index [k], on floats. *)
Definition diff_row_np (bs_model : BlackScholes)
    (spot_range purchase_price_range : list R) (option_type : string)
    (k : nat) (vol : R) : list cell :=
  map (fun spot =>
         to_cell (fsub (grid_price_np bs_model (strike bs_model) option_type
                          vol spot)
                       (Real (nth k purchase_price_range 0))))
      spot_range.

(** What the page shows, on floats. *)
Record PageNp : Type := mkPageNp {
  shown_call_price_np : float64;
  shown_put_price_np : float64;
  heatmap_fig_call_np : matrix;
  heatmap_fig_put_np : matrix;
  call_diff_colormap_np : matrix;
  put_diff_colormap_np : matrix
}.

(** The script below the sidebar (lines 163-166 and 183-240) on floats.
    [None]: line 184 raises [ZeroDivisionError] and the script stops
    there. *)
Definition script_np (w : Sidebar) : option (result PageNp) :=
  let spot_range := linspace (spot_min w) (spot_max w) 10 in
  let vol_range := linspace (vol_min w) (vol_max w) 10 in
  let purchase_call_range :=
    linspace (purchase_min_call w) (purchase_max_call w) 10 in
  let purchase_put_range :=
    linspace (purchase_min_put w) (purchase_max_put w) 10 in
  let bs_model := sidebar_model w in
  match calculate_prices_py bs_model with
  | None => None
  | Some (_, (call_price, put_price)) =>
      Some (
        fig_call <-! plot_heatmap_np bs_model spot_range vol_range (sb_strike w)
                       "call" ;;
        fig_put <-! plot_heatmap_np bs_model spot_range vol_range (sb_strike w)
                      "put" ;;
        call_diff <-! plot_price_diff_colormap_np bs_model spot_range vol_range
                        purchase_call_range "call" ;;
        put_diff <-! plot_price_diff_colormap_np bs_model spot_range vol_range
                       purchase_put_range "put" ;;
        Ok (mkPageNp call_price put_price fig_call fig_put call_diff put_diff))
  end.

(** ** Devices of the proof that [norm_cdf] stays below one *)

(** [cos_int k t] is the integral of [cos ^ k] from [0] to [t], by the
    reduction formula. *)
Fixpoint cos_int (k : nat) (t : R) : R :=
  match k with
  | O => t
  | S O => sin t
  | S (S k' as k1) =>
      cos t ^ k1 * sin t / INR (S k1) + INR k1 / INR (S k1) * cos_int k' t
  end.

(** The Wallis integrals: [cos ^ k] over [[0, PI / 2]]. *)
Definition wallis (k : nat) : R := cos_int k (PI / 2).

(** The integral from [0] to [x] of [(1 + t^2 / (2 n)) ^ (- n) / sqrt (2 PI)]
    for [n = q + 2]: it bounds [norm_cdf x - 1/2] from above. *)
Definition gauss_major (q : nat) (x : R) : R :=
  sqrt (2 * INR (S (S q))) * cos_int (2 * S q) (atan (x / sqrt (2 * INR (S (S q)))))
  / sqrt (2 * PI).

(** ** Tactics for derivatives *)

Lemma derivable_pt_lim_eq (f : R -> R) (x l l' : R) :
  derivable_pt_lim f x l -> l = l' -> derivable_pt_lim f x l'.
Proof. intros H <-. exact H. Qed.

Create HintDb deriv.

Ltac deriv_atom :=
  first
    [ apply derivable_pt_lim_exp
    | apply derivable_pt_lim_cos
    | apply derivable_pt_lim_sin
    | apply derivable_pt_lim_atan
    | apply derivable_pt_lim_ln
    | apply derivable_pt_lim_sqrt
    | solve [eauto with deriv] ].

(** [deriv] differentiates an expression by its syntax; the derivative is
    read off into an existential variable. *)
Ltac deriv :=
  lazymatch goal with
  | |- derivable_pt_lim (fun _ => ?c) _ _ => apply (derivable_pt_lim_const c)
  | |- derivable_pt_lim (fun x => x) _ _ => apply derivable_pt_lim_id
  | |- derivable_pt_lim (fun x => @?f x + @?g x) _ _ =>
      apply (derivable_pt_lim_plus f g); deriv
  | |- derivable_pt_lim (fun x => @?f x - @?g x) _ _ =>
      apply (derivable_pt_lim_minus f g); deriv
  | |- derivable_pt_lim (fun x => @?f x * @?g x) _ _ =>
      apply (derivable_pt_lim_mult f g); deriv
  | |- derivable_pt_lim (fun x => - @?f x) _ _ =>
      apply (derivable_pt_lim_opp f); deriv
  | |- derivable_pt_lim (fun x => @?f x / @?g x) _ _ =>
      apply (derivable_pt_lim_div f g); [deriv | deriv | cbv beta]
  | |- derivable_pt_lim (fun x => @?f x ^ ?n) _ _ =>
      apply (derivable_pt_lim_comp f (fun y => y ^ n));
      [deriv | apply derivable_pt_lim_pow]
  | |- derivable_pt_lim (fun x => ?h x) _ _ => deriv_atom
  | |- derivable_pt_lim (fun x => ?h (@?f x)) _ _ =>
      apply (derivable_pt_lim_comp f h); [deriv | cbv beta; deriv_atom]
  | |- derivable_pt_lim ?h _ _ => deriv_atom
  end.

(** [derive_with] proves [derivable_pt_lim f x l] up to the equation between
    the derivative [deriv] computes and [l], and the side conditions. *)
Ltac derive_with :=
  eapply derivable_pt_lim_eq; [deriv | cbv beta].

(** * Calculus on an interval *)

Section MeanValue.
Variables (f f' : R -> R) (a b : R).
Hypothesis Hderiv : forall c, a <= c <= b -> derivable_pt_lim f c (f' c).

Lemma mvt_nondecreasing :
  a <= b -> (forall c, a <= c <= b -> 0 <= f' c) -> f a <= f b.
Proof.
  intros [Hab | ->] Hpos; [| lra].
  destruct (MVT_cor2 f f' a b Hab Hderiv) as [c [Hc Hin]].
  assert (0 <= f' c * (b - a)).
  { apply Rmult_le_pos; [apply Hpos|]; lra. }
  lra.
Qed.

Lemma mvt_increasing :
  a < b -> (forall c, a <= c <= b -> 0 < f' c) -> f a < f b.
Proof.
  intros Hab Hpos.
  destruct (MVT_cor2 f f' a b Hab Hderiv) as [c [Hc Hin]].
  assert (0 < f' c * (b - a)).
  { apply Rmult_lt_0_compat; [apply Hpos|]; lra. }
  lra.
Qed.


Lemma mvt_decreasing :
  a < b -> (forall c, a <= c <= b -> f' c < 0) -> f b < f a.
Proof.
  intros Hab Hneg.
  destruct (MVT_cor2 f f' a b Hab Hderiv) as [c [Hc Hin]].
  assert (0 < - f' c * (b - a)).
  { apply Rmult_lt_0_compat; [generalize (Hneg c); lra | lra]. }
  lra.
Qed.

Lemma mvt_constant :
  a <= b -> (forall c, a <= c <= b -> f' c = 0) -> f a = f b.
Proof.
  intros [Hab | ->] Hz; [| reflexivity].
  destruct (MVT_cor2 f f' a b Hab Hderiv) as [c [Hc Hin]].
  rewrite Hz in Hc by lra. lra.
Qed.
End MeanValue.

(** * The standard normal law *)

Lemma half_eq : 0.5 = / 2.
Proof. lra. Qed.

Lemma sqrt_2PI_pos : 0 < sqrt (2 * PI).
Proof. apply sqrt_lt_R0. generalize PI_RGT_0; lra. Qed.

Lemma sqrt_2PI_sqr : sqrt (2 * PI) * sqrt (2 * PI) = 2 * PI.
Proof. apply sqrt_sqrt. generalize PI_RGT_0; lra. Qed.

Lemma norm_pdf_pos x : 0 < norm_pdf x.
Proof.
  unfold norm_pdf. apply Rdiv_lt_0_compat; [apply exp_pos | apply sqrt_2PI_pos].
Qed.

Lemma norm_pdf_even x : norm_pdf (- x) = norm_pdf x.
Proof. unfold norm_pdf. f_equal. f_equal. field. Qed.

Lemma norm_cdf_0 : norm_cdf 0 = 1 / 2.
Proof. unfold norm_cdf. rewrite RiemannInt_P9. lra. Qed.

(** The density is the derivative of the distribution function. *)
Lemma norm_cdf_deriv x : derivable_pt_lim norm_cdf x (norm_pdf x).
Proof.
  set (a := Rmin 0 x - 1). set (b := Rmax 0 x + 1).
  assert (Ha0 : a < 0) by (unfold a; generalize (Rmin_l 0 x); lra).
  assert (Hax : a < x) by (unfold a; generalize (Rmin_r 0 x); lra).
  assert (Hxb : x < b) by (unfold b; generalize (Rmax_r 0 x); lra).
  assert (h : a <= b) by lra.
  assert (C0 : forall y, a <= y <= b -> continuity_pt norm_pdf y)
    by (intros; apply norm_pdf_continuity).
  apply derivable_pt_lim_locally_ext with
    (f := fun y => primitive h (FTC_P1 h C0) y
                   + (1 / 2 - RiemannInt (norm_pdf_integrable a 0)))
    (a := a) (b := b); [lra | |].
  - intros y Hy. unfold norm_cdf, primitive.
    destruct (Rle_dec a y) as [Hay | Hay]; [| lra].
    destruct (Rle_dec y b) as [Hyb | Hyb]; [| lra].
    rewrite <- (RiemannInt_P26 (norm_pdf_integrable a 0)
                  (norm_pdf_integrable 0 y) (FTC_P1 h C0 Hay Hyb)).
    lra.
  - replace (norm_pdf x) with (norm_pdf x + 0) by lra.
    apply derivable_pt_lim_plus.
    + apply RiemannInt_P27. lra.
    + apply derivable_pt_lim_const.
Qed.

#[export] Hint Resolve norm_cdf_deriv : deriv.

(** [norm.cdf(-x) = 1 - norm.cdf(x)]. *)
Lemma norm_cdf_symm x : norm_cdf (- x) = 1 - norm_cdf x.
Proof.
  assert (Hd : forall c, derivable_pt_lim
             (fun y => norm_cdf (- y) + norm_cdf y) c ((fun _ => 0) c)).
  { intros c. cbv beta.
    replace 0 with (norm_pdf (- c) * (-1) + norm_pdf c)
      by (rewrite norm_pdf_even; lra).
    apply derivable_pt_lim_plus; [| apply norm_cdf_deriv].
    apply (derivable_pt_lim_comp (fun y => - y) norm_cdf).
    - apply derivable_pt_lim_ext with (f := (- id)%F); [reflexivity|].
      apply derivable_pt_lim_opp, derivable_pt_lim_id.
    - apply norm_cdf_deriv. }
  assert (Hc : forall y, norm_cdf (- y) + norm_cdf y = 1).
  { intros y. destruct (Rle_dec 0 y) as [Hy | Hy].
    - rewrite <- (mvt_constant _ _ 0 y (fun c _ => Hd c) Hy (fun _ _ => eq_refl)).
      rewrite Ropp_0, norm_cdf_0. lra.
    - rewrite (mvt_constant _ _ y 0 (fun c _ => Hd c)); [| lra | reflexivity].
      rewrite Ropp_0, norm_cdf_0. lra. }
  specialize (Hc x). lra.
Qed.

Lemma norm_cdf_incr x y : x < y -> norm_cdf x < norm_cdf y.
Proof.
  intros Hxy.
  apply (mvt_increasing norm_cdf norm_pdf); [| exact Hxy |].
  - intros c _. apply norm_cdf_deriv.
  - intros c _. apply norm_pdf_pos.
Qed.

Lemma norm_cdf_ge_half x : 0 <= x -> 1 / 2 <= norm_cdf x.
Proof.
  intros [Hx | <-].
  - rewrite <- norm_cdf_0. left. apply norm_cdf_incr. exact Hx.
  - rewrite norm_cdf_0. lra.
Qed.

(** * The Wallis integrals *)

Lemma cos_int_SS k t :
  cos_int (S (S k)) t =
  cos t ^ S k * sin t / INR (S (S k)) + INR (S k) / INR (S (S k)) * cos_int k t.
Proof. reflexivity. Qed.

Lemma cos_int_deriv_pair k t :
  derivable_pt_lim (cos_int k) t (cos t ^ k) /\
  derivable_pt_lim (cos_int (S k)) t (cos t ^ S k).
Proof.
  induction k as [| k [IH0 IH1]].
  - split.
    + apply derivable_pt_lim_ext with (f := id); [reflexivity|].
      apply derivable_pt_lim_eq with (1 := derivable_pt_lim_id t). simpl; lra.
    + apply derivable_pt_lim_eq with (1 := derivable_pt_lim_sin t). simpl; lra.
  - split; [exact IH1|].
    apply derivable_pt_lim_ext with
      (f := fun t => cos t ^ S k * sin t / INR (S (S k))
                     + INR (S k) / INR (S (S k)) * cos_int k t).
    { intros z. symmetry. apply cos_int_SS. }
    assert (Hn : INR (S (S k)) <> 0) by (apply not_0_INR; lia).
    derive_with.
    + exact Hn.
    + unfold pred. generalize (sin2_cos2 t). unfold Rsqr.
      rewrite (S_INR (S k)) in *.
      set (c := cos t). set (s := sin t). set (n := INR (S k)) in *.
      intros Hsc.
      assert (Hss : s * s = 1 - c * c) by lra.
      simpl pow. set (p := c ^ k).
      transitivity ((n * p * (- (s * s)) + c * p * c) / (n + 1) + n / (n + 1) * p);
        [field; exact Hn |].
      rewrite Hss. field. exact Hn.
Qed.

Lemma cos_int_deriv k t : derivable_pt_lim (cos_int k) t (cos t ^ k).
Proof. apply cos_int_deriv_pair. Qed.

#[export] Hint Resolve cos_int_deriv : deriv.

Lemma cos_int_0 k : cos_int k 0 = 0.
Proof.
  assert (H : cos_int k 0 = 0 /\ cos_int (S k) 0 = 0).
  { induction k as [| k [IH0 IH1]].
    - simpl. rewrite sin_0. lra.
    - split; [exact IH1|]. rewrite cos_int_SS, IH0, sin_0.
      unfold Rdiv. ring. }
  apply H.
Qed.

Lemma cos_pow_nonneg k t : 0 <= t <= PI / 2 -> 0 <= cos t ^ k.
Proof.
  intros Ht. apply pow_le, cos_ge_0; generalize PI_RGT_0; lra.
Qed.

Lemma cos_int_le_wallis k t : 0 <= t <= PI / 2 -> cos_int k t <= wallis k.
Proof.
  intros Ht. unfold wallis.
  apply (mvt_nondecreasing (cos_int k) (fun t => cos t ^ k)); [| lra |].
  - intros c _. apply cos_int_deriv.
  - intros c Hc. apply cos_pow_nonneg. lra.
Qed.

Lemma wallis_0 : wallis 0 = PI / 2.
Proof. reflexivity. Qed.

Lemma wallis_1 : wallis 1 = 1.
Proof. unfold wallis. simpl. apply sin_PI2. Qed.

Lemma wallis_SS k : wallis (S (S k)) = INR (S k) / INR (S (S k)) * wallis k.
Proof.
  unfold wallis. rewrite cos_int_SS, cos_PI2.
  rewrite pow_ne_zero by lia. unfold Rdiv. ring.
Qed.

Lemma wallis_pos k : 0 < wallis k.
Proof.
  assert (H : 0 < wallis k /\ 0 < wallis (S k)).
  { induction k as [| k [IH0 IH1]].
    - rewrite wallis_0, wallis_1. generalize PI_RGT_0; lra.
    - split; [exact IH1|]. rewrite wallis_SS.
      apply Rmult_lt_0_compat; [| exact IH0].
      apply Rdiv_lt_0_compat; apply lt_0_INR; lia. }
  apply H.
Qed.

Lemma wallis_decr k : wallis (S k) <= wallis k.
Proof.
  unfold wallis.
  pose (g := fun t => cos_int k t - cos_int (S k) t).
  assert (H : g 0 <= g (PI / 2)).
  { apply (mvt_nondecreasing g (fun t => cos t ^ k - cos t ^ S k)).
    - intros c _. unfold g. derive_with. reflexivity.
    - generalize PI_RGT_0; lra.
    - intros c Hc. simpl.
      assert (0 <= cos c ^ k) by (apply cos_pow_nonneg; exact Hc).
      assert (cos c <= 1) by apply COS_bound.
      nra. }
  unfold g in H. rewrite !cos_int_0 in H. lra.
Qed.

Lemma wallis_prod k : INR (S k) * wallis (S k) * wallis k = PI / 2.
Proof.
  induction k as [| k IH].
  - rewrite wallis_0, wallis_1. simpl. lra.
  - rewrite wallis_SS. rewrite <- IH.
    field. apply not_0_INR. lia.
Qed.

Lemma wallis_sqr_bound k : wallis (S k) ^ 2 <= PI / (2 * INR (S k)).
Proof.
  assert (Hn : 0 < INR (S k)) by (apply lt_0_INR; lia).
  assert (Hp := wallis_prod k).
  assert (Hd := wallis_decr k).
  assert (H1 := wallis_pos (S k)).
  apply Rmult_le_reg_l with (INR (S k)); [exact Hn|].
  replace (INR (S k) * (PI / (2 * INR (S k)))) with (PI / 2) by (field; lra).
  rewrite <- Hp.
  replace (INR (S k) * wallis (S k) ^ 2)
    with (INR (S k) * wallis (S k) * wallis (S k)) by ring.
  apply Rmult_le_compat_l; [| exact Hd].
  apply Rmult_le_pos; lra.
Qed.

(** * [norm_cdf] lies strictly between 0 and 1 *)

Lemma exp_INR_mult n s : exp (INR n * s) = exp s ^ n.
Proof.
  induction n as [| n IH].
  - simpl. rewrite Rmult_0_l. apply exp_0.
  - rewrite S_INR, Rmult_plus_distr_r, Rmult_1_l, exp_plus, IH. simpl. ring.
Qed.

Lemma exp_neg_le_inv_pow n s : 0 <= s -> exp (- (INR n * s)) <= / (1 + s) ^ n.
Proof.
  intros Hs. rewrite exp_Ropp, exp_INR_mult.
  apply Rinv_le_contravar.
  - apply pow_lt. lra.
  - apply pow_incr. split; [lra | apply exp_ineq1_le].
Qed.

Lemma atan_nonneg u : 0 <= u -> 0 <= atan u.
Proof.
  intros [Hu | <-].
  - rewrite <- atan_0. left. apply atan_increasing. exact Hu.
  - rewrite atan_0. lra.
Qed.

Lemma cos_atan_sqr u : cos (atan u) ^ 2 = / (1 + u ^ 2).
Proof.
  rewrite cos_atan. unfold Rsqr.
  assert (H : 0 < 1 + u * u) by nra.
  assert (Hs := sqrt_sqrt (1 + u * u) (Rlt_le _ _ H)).
  assert (Hp : 0 < sqrt (1 + u * u)) by (apply sqrt_lt_R0; exact H).
  replace (1 + u ^ 2) with (sqrt (1 + u * u) * sqrt (1 + u * u))
    by (rewrite Hs; ring).
  field. lra.
Qed.

Section GaussBound.
Variable q : nat.
Let p : nat := S q.
Let n : nat := S p.
Let a : R := sqrt (2 * INR n).

Lemma gb_n_pos : 0 < INR n.
Proof. apply lt_0_INR. unfold n. lia. Qed.

Lemma gb_a_pos : 0 < a.
Proof. apply sqrt_lt_R0. generalize gb_n_pos. lra. Qed.

Lemma gb_a_sqr : a * a = 2 * INR n.
Proof. apply sqrt_sqrt. generalize gb_n_pos. lra. Qed.

Lemma gauss_major_deriv x :
  derivable_pt_lim (gauss_major q) x
                   (/ (1 + x ^ 2 / (2 * INR n)) ^ n / sqrt (2 * PI)).
Proof.
  unfold gauss_major. fold p n a.
  assert (Ha := gb_a_pos). assert (Ha2 := gb_a_sqr).
  assert (Hpi := sqrt_2PI_pos).
  derive_with.
  - lra.
  - lra.
  - rewrite pow_mult, cos_atan_sqr.
    replace ((x / a) ^ 2) with (x ^ 2 / (2 * INR n))
      by (rewrite <- Ha2; field; lra).
    set (w := 1 + x ^ 2 / (2 * INR n)).
    assert (Hw : 0 < w).
    { unfold w. assert (0 <= x ^ 2 / (2 * INR n)); [| lra].
      apply Rmult_le_pos; [apply pow2_ge_0|].
      left. apply Rinv_0_lt_compat. generalize gb_n_pos; lra. }
    assert (Hwp : 0 < w ^ p) by (apply pow_lt; exact Hw).
    change (w ^ n) with (w * w ^ p). rewrite pow_inv.
    unfold Rsqr. field. repeat split; lra.
Qed.

Lemma gauss_major_le x :
  0 <= x -> gauss_major q x <= a * wallis (2 * p) / sqrt (2 * PI).
Proof.
  intros Hx. unfold gauss_major. fold p n a.
  assert (Ha := gb_a_pos). assert (Hpi := sqrt_2PI_pos).
  apply Rmult_le_compat_r; [left; apply Rinv_0_lt_compat; exact Hpi|].
  apply Rmult_le_compat_l; [lra|].
  apply cos_int_le_wallis. split.
  - apply atan_nonneg. apply Rmult_le_pos; [exact Hx|].
    left. apply Rinv_0_lt_compat. exact Ha.
  - left. apply atan_bound.
Qed.

Lemma gb_pdf_le x :
  norm_pdf x <= / (1 + x ^ 2 / (2 * INR n)) ^ n / sqrt (2 * PI).
Proof.
  unfold norm_pdf.
  apply Rmult_le_compat_r;
    [left; apply Rinv_0_lt_compat; exact sqrt_2PI_pos|].
  replace (- x ^ 2 / 2) with (- (INR n * (x ^ 2 / (2 * INR n))))
    by (field; generalize gb_n_pos; lra).
  apply exp_neg_le_inv_pow.
  apply Rmult_le_pos; [apply pow2_ge_0|].
  left. apply Rinv_0_lt_compat. generalize gb_n_pos; lra.
Qed.

Lemma gb_cdf_le x :
  0 <= x -> norm_cdf x - 1 / 2 <= a * wallis (2 * p) / sqrt (2 * PI).
Proof.
  intros Hx.
  pose (D := fun y => gauss_major q y - norm_cdf y).
  assert (H : D 0 <= D x).
  { apply (mvt_nondecreasing D
             (fun y => / (1 + y ^ 2 / (2 * INR n)) ^ n / sqrt (2 * PI)
                       - norm_pdf y)).
    - intros c _. unfold D.
      apply (derivable_pt_lim_minus (gauss_major q) norm_cdf).
      + apply gauss_major_deriv.
      + apply norm_cdf_deriv.
    - exact Hx.
    - intros c _. generalize (gb_pdf_le c). lra. }
  unfold D in H.
  assert (H0 : gauss_major q 0 = 0).
  { unfold gauss_major. replace (0 / sqrt (2 * INR (S (S q)))) with 0
      by (unfold Rdiv; ring).
    rewrite atan_0, cos_int_0. unfold Rdiv. ring. }
  rewrite H0, norm_cdf_0 in H.
  generalize (gauss_major_le x Hx). lra.
Qed.

Lemma gb_wallis_sqr : wallis (2 * p) ^ 2 <= PI / (2 * INR (2 * p)).
Proof.
  unfold p. replace (2 * S q)%nat with (S (S (2 * q))) by lia.
  apply wallis_sqr_bound.
Qed.

Lemma gb_sqr_le x :
  0 <= x -> 1 / 2 <= norm_cdf x ->
  (norm_cdf x - 1 / 2) ^ 2 <= (1 + / INR p) / 4.
Proof.
  intros Hx Hlo.
  assert (Ha := gb_a_pos). assert (Ha2 := gb_a_sqr).
  assert (Hpi := sqrt_2PI_pos). assert (Hpi2 := sqrt_2PI_sqr).
  assert (HPI := PI_RGT_0).
  assert (Hp : 0 < INR p) by (apply lt_0_INR; unfold p; lia).
  assert (Hw := wallis_pos (2 * p)).
  apply Rle_trans with ((a * wallis (2 * p) / sqrt (2 * PI)) ^ 2).
  - apply pow_incr. split; [lra|]. apply gb_cdf_le. exact Hx.
  - replace ((a * wallis (2 * p) / sqrt (2 * PI)) ^ 2)
      with (a * a * wallis (2 * p) ^ 2 / (sqrt (2 * PI) * sqrt (2 * PI)))
      by (field; lra).
    rewrite Ha2, Hpi2.
    apply Rle_trans with (2 * INR n * (PI / (2 * INR (2 * p))) / (2 * PI)).
    + apply Rmult_le_compat_r; [left; apply Rinv_0_lt_compat; lra|].
      apply Rmult_le_compat_l; [generalize gb_n_pos; lra|].
      apply gb_wallis_sqr.
    + right. unfold n. rewrite (S_INR p), mult_INR.
      replace (INR 2) with 2 by (simpl; lra).
      field. lra.
Qed.
End GaussBound.

Lemma norm_cdf_le_1_nonneg x : 0 <= x -> norm_cdf x <= 1.
Proof.
  intros Hx.
  assert (Hlo := norm_cdf_ge_half x Hx).
  destruct (Rle_dec (norm_cdf x) 1) as [H | H]; [exact H | exfalso].
  set (h := norm_cdf x - 1 / 2) in *.
  assert (Hh : 1 / 2 < h) by (unfold h; lra).
  assert (Heps : 0 < 4 * h ^ 2 - 1) by nra.
  destruct (archimed_cor1 _ Heps) as [N [HN HNpos]].
  destruct N as [| q]; [lia|].
  generalize (gb_sqr_le q x Hx Hlo). fold h. lra.
Qed.

Lemma norm_cdf_bounds x : 0 < norm_cdf x < 1.
Proof.
  assert (Hup : forall y, norm_cdf y < 1).
  { intros y. destruct (Rle_dec 0 y) as [Hy | Hy].
    - apply Rlt_le_trans with (norm_cdf (y + 1)).
      + apply norm_cdf_incr. lra.
      + apply norm_cdf_le_1_nonneg. lra.
    - apply Rlt_le_trans with (norm_cdf 0).
      + apply norm_cdf_incr. lra.
      + rewrite norm_cdf_0. lra. }
  split; [| apply Hup].
  generalize (Hup (- x)). rewrite norm_cdf_symm. lra.
Qed.

(** * The pricer in closed form *)

Lemma valid_in_domain self : valid self -> in_domain self.
Proof.
  unfold valid, in_domain. intros (HS & HK & HT & Hv).
  repeat split; try lra. apply Rdiv_lt_0_compat; assumption.
Qed.

Lemma py_div_ok x y : y <> 0 -> py_div x y = Some (x / y).
Proof.
  intros H. unfold py_div.
  destruct (Req_dec_T y 0); [contradiction | reflexivity].
Qed.

Lemma np_log_ok x : 0 < x -> np_log x = Some (ln x).
Proof.
  intros H. unfold np_log.
  destruct (Rlt_dec 0 x); [reflexivity | contradiction].
Qed.

Lemma np_sqrt_ok x : 0 <= x -> np_sqrt x = Some (sqrt x).
Proof.
  intros H. unfold np_sqrt.
  destruct (Rle_dec 0 x); [reflexivity | contradiction].
Qed.

(** On its domain [calculate_prices] returns the closed forms. *)

Lemma calculate_prices_in_domain self :
  in_domain self ->
  calculate_prices self =
  Some (priced_of self, (call_price (priced_of self), put_price (priced_of self))).
Proof.
  intros (HK & Hq & HT & Hv).
  assert (HsT : 0 < sqrt (time_to_maturity self)) by (apply sqrt_lt_R0; exact HT).
  unfold calculate_prices.
  rewrite (py_div_ok _ _ HK). cbn [bind].
  rewrite (np_log_ok _ Hq). cbn [bind].
  rewrite np_sqrt_ok by lra. cbn [bind].
  rewrite py_div_ok by (apply Rmult_integral_contrapositive_currified; lra).
  cbn [bind].
  rewrite py_div_ok
    by (repeat apply Rmult_integral_contrapositive_currified; lra).
  cbn [bind]. reflexivity.
Qed.

(** Off its domain one of the four partial operations has no value. *)
Lemma calculate_prices_outside self :
  ~ in_domain self -> calculate_prices self = None.
Proof.
  intros Hn. unfold calculate_prices, py_div at 1.
  destruct (Req_dec_T (strike self) 0) as [HK | HK]; [reflexivity|].
  cbn [bind]. unfold np_log.
  destruct (Rlt_dec 0 (current_price self / strike self)) as [Hq | Hq];
    [| reflexivity].
  cbn [bind]. unfold np_sqrt.
  destruct (Rle_dec 0 (time_to_maturity self)) as [HT | HT]; [| reflexivity].
  cbn [bind]. unfold py_div at 1.
  destruct (Req_dec_T (volatility self * sqrt (time_to_maturity self)) 0)
    as [Hv | Hv]; [reflexivity | exfalso].
  apply Hn. repeat split; try assumption.
  - destruct HT as [HT | HT]; [exact HT|].
    exfalso. apply Hv. rewrite <- HT, sqrt_0. ring.
  - intros H0. apply Hv. rewrite H0. ring.
Qed.

Lemma calculate_prices_valid self :
  valid self ->
  calculate_prices self =
  Some (priced_of self, (call_price (priced_of self), put_price (priced_of self))).
Proof. intros H. apply calculate_prices_in_domain, valid_in_domain, H. Qed.

(** [norm_cdf] is symmetric, so the two prices differ by the forward. *)
Lemma bs_parity T K spot sigma r :
  bs_call T K spot sigma r - bs_put T K spot sigma r
  = spot - K * exp (- (r * T)).
Proof. unfold bs_call, bs_put. rewrite !norm_cdf_symm. ring. Qed.

Lemma bs_d1_times T K spot sigma r :
  0 < T -> sigma <> 0 ->
  bs_d1 T K spot sigma r * (sigma * sqrt T)
  = ln (spot / K) + (r + sigma ^ 2 / 2) * T.
Proof.
  intros HT Hs. unfold bs_d1. rewrite half_eq.
  assert (0 < sqrt T) by (apply sqrt_lt_R0; exact HT).
  field. split; lra.
Qed.

(** The identity behind every sensitivity:
    [spot * pdf(d1) = K * exp(-rT) * pdf(d2)]. *)
Lemma pdf_identity T K spot sigma r :
  0 < T -> K <> 0 -> 0 < spot / K -> sigma <> 0 ->
  spot * norm_pdf (bs_d1 T K spot sigma r) =
  K * exp (- (r * T)) * norm_pdf (bs_d2 T K spot sigma r).
Proof.
  intros HT HK Hq Hs.
  assert (Hd := bs_d1_times T K spot sigma r HT Hs).
  assert (HsT := sqrt_sqrt T (Rlt_le _ _ HT)).
  unfold bs_d2, norm_pdf. set (d := bs_d1 T K spot sigma r) in *.
  set (v := sigma * sqrt T) in *.
  assert (Hv2 : v * v = sigma ^ 2 * T) by (unfold v; nra).
  replace (- (d - v) ^ 2 / 2)
    with (- d ^ 2 / 2 + (ln (spot / K) + r * T)) by nra.
  rewrite !exp_plus, (exp_ln _ Hq), exp_Ropp.
  assert (Hc := sqrt_2PI_pos). assert (He := exp_pos (r * T)).
  field. repeat split; lra.
Qed.

(** * Sensitivities of the two prices *)

Section Greeks.
Variables T K spot sigma r : R.
Hypothesis HT : 0 < T.
Hypothesis HK : 0 < K.
Hypothesis Hspot : 0 < spot.
Hypothesis Hsigma : 0 < sigma.

Let v : R := sigma * sqrt T.

Lemma greeks_v_pos : 0 < v.
Proof. apply Rmult_lt_0_compat; [exact Hsigma | apply sqrt_lt_R0; exact HT]. Qed.

Lemma greeks_quot_pos : 0 < spot / K.
Proof. apply Rdiv_lt_0_compat; assumption. Qed.

Lemma greeks_pdf_identity :
  spot * norm_pdf (bs_d1 T K spot sigma r) =
  K * exp (- (r * T)) * norm_pdf (bs_d2 T K spot sigma r).
Proof. apply pdf_identity; try lra. apply greeks_quot_pos. Qed.

(** *** Sensitivity to the spot price *)

Lemma bs_d1_deriv_spot :
  derivable_pt_lim (fun s => bs_d1 T K s sigma r) spot (/ (spot * v)).
Proof.
  assert (Hv := greeks_v_pos). assert (Hq := greeks_quot_pos).
  unfold bs_d1. fold v. derive_with; try lra.
  unfold Rsqr. field. repeat split; lra.
Qed.

Lemma bs_call_deriv_spot :
  derivable_pt_lim (fun s => bs_call T K s sigma r) spot
                   (norm_cdf (bs_d1 T K spot sigma r)).
Proof.
  assert (Hv := greeks_v_pos). assert (Hid := greeks_pdf_identity).
  assert (Hd := bs_d1_deriv_spot).
  unfold bs_call. unfold bs_d2 in *. fold v in Hid |- *.
  eapply derivable_pt_lim_eq.
  - apply (derivable_pt_lim_minus
             (fun s => s * norm_cdf (bs_d1 T K s sigma r))
             (fun s => K * exp (- (r * T)) * norm_cdf (bs_d1 T K s sigma r - v))).
    + apply (derivable_pt_lim_mult id (fun s => norm_cdf (bs_d1 T K s sigma r))).
      * apply derivable_pt_lim_id.
      * apply (derivable_pt_lim_comp (fun s => bs_d1 T K s sigma r) norm_cdf);
          [exact Hd | apply norm_cdf_deriv].
    + apply (derivable_pt_lim_mult (fun _ => K * exp (- (r * T)))
               (fun s => norm_cdf (bs_d1 T K s sigma r - v))).
      * apply (derivable_pt_lim_const (K * exp (- (r * T)))).
      * apply (derivable_pt_lim_comp (fun s => bs_d1 T K s sigma r - v) norm_cdf);
          [| apply norm_cdf_deriv].
        apply (derivable_pt_lim_minus (fun s => bs_d1 T K s sigma r) (fun _ => v));
          [exact Hd | apply (derivable_pt_lim_const v)].
  - cbv beta. unfold id.
    set (d := bs_d1 T K spot sigma r) in *.
    transitivity (norm_cdf d
                  + (spot * norm_pdf d - K * exp (- (r * T)) * norm_pdf (d - v))
                    * / (spot * v)); [ring |].
    rewrite Hid. ring.
Qed.

Lemma bs_put_deriv_spot :
  derivable_pt_lim (fun s => bs_put T K s sigma r) spot
                   (norm_cdf (bs_d1 T K spot sigma r) - 1).
Proof.
  apply derivable_pt_lim_ext with
    (f := fun s => bs_call T K s sigma r - (s - K * exp (- (r * T)))).
  { intros s. generalize (bs_parity T K s sigma r). lra. }
  eapply derivable_pt_lim_eq.
  - apply (derivable_pt_lim_minus (fun s => bs_call T K s sigma r)
             (fun s => s - K * exp (- (r * T)))).
    + apply bs_call_deriv_spot.
    + apply (derivable_pt_lim_minus id (fun _ => K * exp (- (r * T)))).
      * apply derivable_pt_lim_id.
      * apply (derivable_pt_lim_const (K * exp (- (r * T)))).
  - ring.
Qed.

(** The derivative of [call_delta] along the spot price: the gamma of the
    model. *)
Lemma bs_delta_deriv_spot :
  derivable_pt_lim (fun s => norm_cdf (bs_d1 T K s sigma r)) spot
                   (norm_pdf (bs_d1 T K spot sigma r) / (spot * sigma * sqrt T)).
Proof.
  assert (Hv := greeks_v_pos).
  eapply derivable_pt_lim_eq.
  - apply (derivable_pt_lim_comp (fun s => bs_d1 T K s sigma r) norm_cdf);
      [apply bs_d1_deriv_spot | apply norm_cdf_deriv].
  - assert (HsT : 0 < sqrt T) by (apply sqrt_lt_R0; exact HT).
    unfold v. field. repeat split; lra.
Qed.

(** *** Sensitivity to the volatility *)

Lemma bs_d1_deriv_vol :
  derivable_pt_lim (fun s => bs_d1 T K spot s r) sigma
                   (sqrt T - bs_d1 T K spot sigma r / sigma).
Proof.
  assert (Hv := greeks_v_pos). unfold v in Hv.
  assert (HsT : 0 < sqrt T) by (apply sqrt_lt_R0; exact HT).
  assert (HTs := sqrt_sqrt T (Rlt_le _ _ HT)).
  unfold bs_d1. derive_with; try lra.
  unfold Rsqr. simpl pred. rewrite half_eq.
  replace (INR 2) with 2 by (simpl; lra).
  set (L := ln (spot / K)). set (s := sqrt T) in *.
  rewrite <- HTs. field. split; lra.
Qed.

Lemma bs_call_deriv_vol :
  derivable_pt_lim (fun s => bs_call T K spot s r) sigma
                   (spot * norm_pdf (bs_d1 T K spot sigma r) * sqrt T).
Proof.
  assert (Hid := greeks_pdf_identity).
  assert (Hd := bs_d1_deriv_vol).
  unfold bs_call. unfold bs_d2 in *.
  eapply derivable_pt_lim_eq.
  - apply (derivable_pt_lim_minus
             (fun s => spot * norm_cdf (bs_d1 T K spot s r))
             (fun s => K * exp (- (r * T))
                       * norm_cdf (bs_d1 T K spot s r - s * sqrt T))).
    + apply (derivable_pt_lim_mult (fun _ => spot)
               (fun s => norm_cdf (bs_d1 T K spot s r))).
      * apply (derivable_pt_lim_const spot).
      * apply (derivable_pt_lim_comp (fun s => bs_d1 T K spot s r) norm_cdf);
          [exact Hd | apply norm_cdf_deriv].
    + apply (derivable_pt_lim_mult (fun _ => K * exp (- (r * T)))
               (fun s => norm_cdf (bs_d1 T K spot s r - s * sqrt T))).
      * apply (derivable_pt_lim_const (K * exp (- (r * T)))).
      * apply (derivable_pt_lim_comp
                 (fun s => bs_d1 T K spot s r - s * sqrt T) norm_cdf);
          [| apply norm_cdf_deriv].
        apply (derivable_pt_lim_minus (fun s => bs_d1 T K spot s r)
                 (fun s => s * sqrt T)); [exact Hd |].
        apply (derivable_pt_lim_mult id (fun _ => sqrt T));
          [apply derivable_pt_lim_id | apply (derivable_pt_lim_const (sqrt T))].
  - cbv beta. unfold id.
    set (d := bs_d1 T K spot sigma r) in *.
    set (E := K * exp (- (r * T)) * norm_pdf (d - sigma * sqrt T)) in *.
    transitivity ((spot * norm_pdf d - E) * (sqrt T - d / sigma) + E * sqrt T);
      [unfold E; ring |].
    rewrite Hid. ring.
Qed.

Lemma bs_put_deriv_vol :
  derivable_pt_lim (fun s => bs_put T K spot s r) sigma
                   (spot * norm_pdf (bs_d1 T K spot sigma r) * sqrt T).
Proof.
  apply derivable_pt_lim_ext with
    (f := fun s => bs_call T K spot s r - (spot - K * exp (- (r * T)))).
  { intros s. generalize (bs_parity T K spot s r). lra. }
  eapply derivable_pt_lim_eq.
  - apply (derivable_pt_lim_minus (fun s => bs_call T K spot s r)
             (fun _ => spot - K * exp (- (r * T)))).
    + apply bs_call_deriv_vol.
    + apply (derivable_pt_lim_const (spot - K * exp (- (r * T)))).
  - ring.
Qed.

(** *** Sensitivity to the strike *)

Lemma bs_d1_deriv_strike :
  derivable_pt_lim (fun k => bs_d1 T k spot sigma r) K (- / (K * v)).
Proof.
  assert (Hv := greeks_v_pos). assert (Hq := greeks_quot_pos).
  unfold bs_d1. fold v. derive_with; try lra.
  unfold Rsqr. field. repeat split; lra.
Qed.

Lemma bs_call_deriv_strike :
  derivable_pt_lim (fun k => bs_call T k spot sigma r) K
                   (- (exp (- (r * T)) * norm_cdf (bs_d2 T K spot sigma r))).
Proof.
  assert (Hv := greeks_v_pos). assert (Hid := greeks_pdf_identity).
  assert (Hd := bs_d1_deriv_strike).
  unfold bs_call. unfold bs_d2 in *. fold v in Hid |- *.
  eapply derivable_pt_lim_eq.
  - apply (derivable_pt_lim_minus
             (fun k => spot * norm_cdf (bs_d1 T k spot sigma r))
             (fun k => k * exp (- (r * T)) * norm_cdf (bs_d1 T k spot sigma r - v))).
    + apply (derivable_pt_lim_mult (fun _ => spot)
               (fun k => norm_cdf (bs_d1 T k spot sigma r))).
      * apply (derivable_pt_lim_const spot).
      * apply (derivable_pt_lim_comp (fun k => bs_d1 T k spot sigma r) norm_cdf);
          [exact Hd | apply norm_cdf_deriv].
    + apply (derivable_pt_lim_mult (fun k => k * exp (- (r * T)))
               (fun k => norm_cdf (bs_d1 T k spot sigma r - v))).
      * apply (derivable_pt_lim_mult id (fun _ => exp (- (r * T))));
          [apply derivable_pt_lim_id
          | apply (derivable_pt_lim_const (exp (- (r * T))))].
      * apply (derivable_pt_lim_comp (fun k => bs_d1 T k spot sigma r - v) norm_cdf);
          [| apply norm_cdf_deriv].
        apply (derivable_pt_lim_minus (fun k => bs_d1 T k spot sigma r) (fun _ => v));
          [exact Hd | apply (derivable_pt_lim_const v)].
  - cbv beta. unfold id.
    set (d := bs_d1 T K spot sigma r) in *.
    transitivity (- (exp (- (r * T)) * norm_cdf (d - v))
                  - (spot * norm_pdf d - K * exp (- (r * T)) * norm_pdf (d - v))
                    * / (K * v)); [ring |].
    rewrite Hid. ring.
Qed.

Lemma bs_put_deriv_strike :
  derivable_pt_lim (fun k => bs_put T k spot sigma r) K
                   (exp (- (r * T)) * (1 - norm_cdf (bs_d2 T K spot sigma r))).
Proof.
  apply derivable_pt_lim_ext with
    (f := fun k => bs_call T k spot sigma r - (spot - k * exp (- (r * T)))).
  { intros k. generalize (bs_parity T k spot sigma r). lra. }
  eapply derivable_pt_lim_eq.
  - apply (derivable_pt_lim_minus (fun k => bs_call T k spot sigma r)
             (fun k => spot - k * exp (- (r * T)))).
    + apply bs_call_deriv_strike.
    + apply (derivable_pt_lim_minus (fun _ => spot) (fun k => k * exp (- (r * T)))).
      * apply (derivable_pt_lim_const spot).
      * apply (derivable_pt_lim_mult id (fun _ => exp (- (r * T))));
          [apply derivable_pt_lim_id
          | apply (derivable_pt_lim_const (exp (- (r * T))))].
  - unfold id. ring.
Qed.

End Greeks.

(** * Monotonicity of the two prices *)

Section Monotone.
Variables T K spot sigma r : R.
Hypothesis HT : 0 < T.






Lemma bs_call_strike_decr K1 K2 :
  0 < spot -> 0 < sigma -> 0 < K1 -> K1 < K2 ->
  bs_call T K2 spot sigma r < bs_call T K1 spot sigma r.
Proof.
  intros Hspot Hs H1 H12.
  apply (mvt_decreasing (fun k => bs_call T k spot sigma r)
           (fun k => - (exp (- (r * T)) * norm_cdf (bs_d2 T k spot sigma r))));
    [| exact H12 |].
  - intros c Hc. apply bs_call_deriv_strike; lra.
  - intros c _.
    assert (0 < exp (- (r * T)) * norm_cdf (bs_d2 T c spot sigma r)); [| lra].
    apply Rmult_lt_0_compat; [apply exp_pos | apply norm_cdf_bounds].
Qed.

Lemma bs_put_strike_incr K1 K2 :
  0 < spot -> 0 < sigma -> 0 < K1 -> K1 < K2 ->
  bs_put T K1 spot sigma r < bs_put T K2 spot sigma r.
Proof.
  intros Hspot Hs H1 H12.
  apply (mvt_increasing (fun k => bs_put T k spot sigma r)
           (fun k => exp (- (r * T)) * (1 - norm_cdf (bs_d2 T k spot sigma r))));
    [| exact H12 |].
  - intros c Hc. apply bs_put_deriv_strike; lra.
  - intros c _.
    apply Rmult_lt_0_compat; [apply exp_pos |].
    generalize (norm_cdf_bounds (bs_d2 T c spot sigma r)). lra.
Qed.

Lemma bs_call_strike_inj K1 K2 :
  0 < spot -> 0 < sigma -> 0 < K1 -> 0 < K2 ->
  bs_call T K1 spot sigma r = bs_call T K2 spot sigma r -> K1 = K2.
Proof.
  intros Hspot Hs H1 H2 Heq.
  destruct (Rtotal_order K1 K2) as [Hlt | [Heq' | Hgt]]; [| exact Heq' |].
  - generalize (bs_call_strike_decr K1 K2 Hspot Hs H1 Hlt). lra.
  - generalize (bs_call_strike_decr K2 K1 Hspot Hs H2 Hgt). lra.
Qed.

Lemma bs_put_strike_inj K1 K2 :
  0 < spot -> 0 < sigma -> 0 < K1 -> 0 < K2 ->
  bs_put T K1 spot sigma r = bs_put T K2 spot sigma r -> K1 = K2.
Proof.
  intros Hspot Hs H1 H2 Heq.
  destruct (Rtotal_order K1 K2) as [Hlt | [Heq' | Hgt]]; [| exact Heq' |].
  - generalize (bs_put_strike_incr K1 K2 Hspot Hs H1 Hlt). lra.
  - generalize (bs_put_strike_incr K2 K1 Hspot Hs H2 Hgt). lra.
Qed.
End Monotone.

(** * The sweeps as comprehensions *)

Lemma list_set_app {A : Type} (l1 l2 : list A) (x v : A) :
  list_set (l1 ++ x :: l2) (length l1) v = l1 ++ v :: l2.
Proof.
  induction l1 as [| h t IH]; simpl; [reflexivity | now rewrite IH].
Qed.

Lemma nth_error_middle {A : Type} (l1 l2 : list A) (x : A) :
  nth_error (l1 ++ x :: l2) (length l1) = Some x.
Proof.
  induction l1 as [| h t IH]; simpl; [reflexivity | exact IH].
Qed.

Lemma set_cell_middle (top bottom : matrix) (pre post : list cell) (z v : cell) :
  set_cell (top ++ (pre ++ z :: post) :: bottom) (length top) (length pre) v =
  top ++ (pre ++ v :: post) :: bottom.
Proof.
  unfold set_cell. rewrite nth_error_middle, list_set_app, list_set_app.
  reflexivity.
Qed.

(** The loops are followed on an array split at the cell being written:
    [top] holds the rows already filled, [pre] the cells already written in
    the current row, and what remains still holds the initial value [z]. *)
Section Loops.
Variable z : cell.

(** One pass of an inner loop that writes [g spot] at column [j] of row [i]. *)
Lemma inner_loop_ok (body : nat -> R -> matrix -> result matrix)
    (g : R -> cell) (top bottom : matrix) :
  (forall j x a, body j x a = Ok (set_cell a (length top) j (g x))) ->
  forall (xs : list R) (pre : list cell),
    for_enumerate body (length pre) xs
      (top ++ (pre ++ repeat z (length xs)) :: bottom) =
    Ok (top ++ (pre ++ map g xs) :: bottom).
Proof.
  intros Hbody xs. induction xs as [| x rest IH]; intros pre.
  - reflexivity.
  - cbn [for_enumerate length repeat map]. rewrite Hbody, set_cell_middle.
    replace (pre ++ g x :: repeat z (length rest))
      with ((pre ++ [g x]) ++ repeat z (length rest))
      by (rewrite <- app_assoc; reflexivity).
    replace (S (length pre)) with (length (pre ++ [g x]))
      by (rewrite length_app; simpl; lia).
    rewrite IH, <- app_assoc. reflexivity.
Qed.

(** An inner loop whose body raises stops at its first element. *)
Lemma inner_loop_raise (body : nat -> R -> matrix -> result matrix) (e : exn) :
  (forall j x a, body j x a = Raise e) ->
  forall (xs : list R) (j : nat) (a : matrix),
    xs <> [] -> for_enumerate body j xs a = Raise e.
Proof.
  intros Hbody [| x rest] j a Hne; [contradiction |].
  cbn [for_enumerate]. rewrite Hbody. reflexivity.
Qed.

(** The outer loop, when each pass fills row [i] with [row i vol]. *)
Lemma outer_loop_ok (body : nat -> R -> matrix -> result matrix)
    (row : nat -> R -> list cell) (n : nat) (vols : list R) :
  forall (top : matrix),
    (forall k vol bottom tp, nth_error vols k = Some vol ->
       length tp = (length top + k)%nat ->
       body (length tp) vol (tp ++ repeat z n :: bottom) =
       Ok (tp ++ row (length tp) vol :: bottom)) ->
    for_enumerate body (length top) vols
      (top ++ repeat (repeat z n) (length vols)) =
    Ok (top ++ map (fun '(k, vol) => row k vol)
                   (combine (seq (length top) (length vols)) vols)).
Proof.
  induction vols as [| vol rest IH]; intros top Hbody.
  - reflexivity.
  - cbn [for_enumerate length repeat seq combine map].
    rewrite (Hbody 0%nat vol _ top eq_refl) by lia.
    replace (top ++ row (length top) vol :: repeat (repeat z n) (length rest))
      with ((top ++ [row (length top) vol]) ++ repeat (repeat z n) (length rest))
      by (rewrite <- app_assoc; reflexivity).
    replace (S (length top)) with (length (top ++ [row (length top) vol]))
      by (rewrite length_app; simpl; lia).
    rewrite IH.
    + rewrite <- app_assoc. reflexivity.
    + intros k v bottom tp Hk Htp. apply (Hbody (S k)); [exact Hk |].
      rewrite Htp, length_app. simpl. lia.
Qed.
(** The outer loop, when the passes before index [f] fill their rows and
    the pass at [f] raises. *)
Lemma outer_loop_raise (body : nat -> R -> matrix -> result matrix)
    (row : nat -> R -> list cell) (n : nat) (e : exn) (vols : list R) :
  forall (f : nat) (top : matrix),
    (f < length vols)%nat ->
    (forall k vol bottom tp, (k < f)%nat ->
       length tp = (length top + k)%nat ->
       body (length tp) vol (tp ++ repeat z n :: bottom) =
       Ok (tp ++ row (length tp) vol :: bottom)) ->
    (forall vol a (tp : matrix), length tp = (length top + f)%nat ->
       body (length tp) vol a = Raise e) ->
    for_enumerate body (length top) vols
      (top ++ repeat (repeat z n) (length vols)) = Raise e.
Proof.
  induction vols as [| vol rest IH]; intros f top Hf Hok Hraise.
  - simpl in Hf. lia.
  - cbn [for_enumerate length repeat]. destruct f as [| f'].
    + rewrite (Hraise vol _ top) by lia. reflexivity.
    + rewrite (Hok 0%nat vol _ top) by lia.
      replace (top ++ row (length top) vol :: repeat (repeat z n) (length rest))
        with ((top ++ [row (length top) vol])
              ++ repeat (repeat z n) (length rest))
        by (rewrite <- app_assoc; reflexivity).
      replace (S (length top)) with (length (top ++ [row (length top) vol]))
        by (rewrite length_app; simpl; lia).
      apply (IH f').
      * simpl in Hf. lia.
      * intros k v bottom tp Hk Htp. apply (Hok (S k)); [lia |].
        rewrite Htp, length_app. simpl. lia.
      * intros v a tp Htp. apply Hraise.
        rewrite Htp, length_app. simpl. lia.
Qed.

(** A loop whose body changes nothing. *)
Lemma loop_skip (body : nat -> R -> matrix -> result matrix) :
  (forall k x a, body k x a = Ok a) ->
  forall (xs : list R) (k : nat) (a : matrix), for_enumerate body k xs a = Ok a.
Proof.
  intros Hbody xs. induction xs as [| x rest IH]; intros k a.
  - reflexivity.
  - cbn [for_enumerate]. rewrite Hbody. apply IH.
Qed.
End Loops.

Lemma map_combine_seq {A B : Type} (f : A -> B) (l : list A) (s : nat) :
  map (fun '(_, x) => f x) (combine (seq s (length l)) l) = map f l.
Proof.
  revert s. induction l as [| x t IH]; intros s; simpl; [reflexivity |].
  now rewrite IH.
Qed.

Lemma nth_error_combine_seq {A : Type} (l : list A) (s i : nat) (x : A) :
  nth_error l i = Some x ->
  nth_error (combine (seq s (length l)) l) i = Some ((s + i)%nat, x).
Proof.
  revert s i. induction l as [| h t IH]; intros s [| i] H; simpl in *;
    try discriminate.
  - injection H as ->. now rewrite Nat.add_0_r.
  - rewrite (IH (S s) i H), Nat.add_succ_r. reflexivity.
Qed.

(** What [plot_heatmap] computes, as a comprehension. *)
Lemma plot_heatmap_eq bs_model spot_range vol_range K option_type :
  plot_heatmap bs_model spot_range vol_range K option_type =
  Ok (map (fun vol => map (grid_price bs_model K option_type vol) spot_range)
          vol_range).
Proof.
  unfold plot_heatmap, zeros.
  rewrite (outer_loop_ok (Some 0) _
             (fun _ vol => map (grid_price bs_model K option_type vol) spot_range)
             (length spot_range) vol_range []).
  - cbn [app length]. f_equal.
    apply (map_combine_seq
             (fun vol => map (grid_price bs_model K option_type vol) spot_range)).
  - intros k vol bottom tp _ _.
    apply (inner_loop_ok (Some 0) _ (grid_price bs_model K option_type vol)
             tp bottom (fun _ _ _ => eq_refl) spot_range []).
Qed.

Lemma plot_price_diff_colormap_ok bs_model spot_range vol_range
    purchase_price_range option_type :
  (length vol_range <= length purchase_price_range)%nat ->
  plot_price_diff_colormap bs_model spot_range vol_range purchase_price_range
    option_type =
  Ok (map (fun '(k, vol) =>
             diff_row bs_model spot_range purchase_price_range option_type k vol)
          (combine (seq 0 (length vol_range)) vol_range)).
Proof.
  intros Hlen. unfold plot_price_diff_colormap, zeros.
  rewrite (outer_loop_ok (Some 0) _
             (diff_row bs_model spot_range purchase_price_range option_type)
             (length spot_range) vol_range []); [reflexivity |].
  intros k vol bottom tp Hk Htp.
  assert (Hin : (length tp < length purchase_price_range)%nat).
  { assert (k < length vol_range)%nat by (apply nth_error_Some; congruence).
    simpl in Htp. lia. }
  refine (inner_loop_ok (Some 0) _
            (fun spot => option_map
               (fun p => p - nth (length tp) purchase_price_range 0)
               (grid_price bs_model (strike bs_model) option_type vol spot))
            tp bottom _ spot_range []).
  intros j x a. rewrite (nth_error_nth' _ 0 Hin). reflexivity.
Qed.

Lemma plot_price_diff_colormap_raise bs_model spot_range vol_range
    purchase_price_range option_type :
  (length purchase_price_range < length vol_range)%nat -> spot_range <> [] ->
  plot_price_diff_colormap bs_model spot_range vol_range purchase_price_range
    option_type = Raise IndexError.
Proof.
  intros Hlen Hne. unfold plot_price_diff_colormap, zeros.
  apply (outer_loop_raise (Some 0) _
           (diff_row bs_model spot_range purchase_price_range option_type)
           (length spot_range) IndexError vol_range
           (length purchase_price_range) [] Hlen).
  - intros k vol bottom tp Hk Htp. simpl in Htp.
    assert (Hin : (length tp < length purchase_price_range)%nat) by lia.
    refine (inner_loop_ok (Some 0) _
              (fun spot => option_map
                 (fun p => p - nth (length tp) purchase_price_range 0)
                 (grid_price bs_model (strike bs_model) option_type vol spot))
              tp bottom _ spot_range []).
    intros j x a. rewrite (nth_error_nth' _ 0 Hin). reflexivity.
  - intros vol a tp Htp. simpl in Htp.
    apply inner_loop_raise; [| exact Hne].
    intros j x a'.
    assert (Hnone : nth_error purchase_price_range (length tp) = None)
      by (apply nth_error_None; lia).
    rewrite Hnone. reflexivity.
Qed.

Lemma plot_price_diff_colormap_no_spots bs_model vol_range purchase_price_range
    option_type :
  plot_price_diff_colormap bs_model [] vol_range purchase_price_range
    option_type = Ok (repeat [] (length vol_range)).
Proof.
  unfold plot_price_diff_colormap, zeros. cbn [length repeat].
  apply loop_skip. intros k x a. reflexivity.
Qed.

Lemma has_shape_map_map {A B : Type} (f : A -> B -> cell) (rows : list A)
    (cols : list B) :
  has_shape (map (fun r => map (f r) cols) rows) (length rows) (length cols).
Proof.
  split; [apply length_map |].
  apply Forall_forall. intros row Hin.
  apply in_map_iff in Hin. destruct Hin as [r [<- _]]. apply length_map.
Qed.

Lemma get_cell_map_map {A B : Type} (f : A -> B -> cell) (rows : list A)
    (cols : list B) (i j : nat) (r : A) (c : B) :
  nth_error rows i = Some r -> nth_error cols j = Some c ->
  get_cell (map (fun r => map (f r) cols) rows) i j = Some (f r c).
Proof.
  intros Hi Hj. unfold get_cell.
  rewrite nth_error_map, Hi. cbn [option_map].
  rewrite nth_error_map, Hj. reflexivity.
Qed.

Lemma get_cell_diff bs_model spot_range vol_range purchase_price_range
    option_type i j vol spot p :
  nth_error vol_range i = Some vol -> nth_error spot_range j = Some spot ->
  nth_error purchase_price_range i = Some p ->
  get_cell (map (fun '(k, vol) =>
                   diff_row bs_model spot_range purchase_price_range
                            option_type k vol)
                (combine (seq 0 (length vol_range)) vol_range)) i j =
  Some (option_map (fun x => x - p)
          (grid_price bs_model (strike bs_model) option_type vol spot)).
Proof.
  intros Hi Hj Hp. unfold get_cell.
  rewrite nth_error_map, (nth_error_combine_seq _ 0 i vol Hi).
  cbn [option_map Nat.add]. unfold diff_row.
  rewrite nth_error_map, Hj. cbn [option_map].
  rewrite (nth_error_nth _ _ 0 Hp). reflexivity.
Qed.

Lemma has_shape_diff bs_model spot_range vol_range purchase_price_range
    option_type :
  has_shape (map (fun '(k, vol) =>
                    diff_row bs_model spot_range purchase_price_range
                             option_type k vol)
                 (combine (seq 0 (length vol_range)) vol_range))
            (length vol_range) (length spot_range).
Proof.
  split.
  - rewrite length_map, length_combine, length_seq. apply Nat.min_id.
  - apply Forall_forall. intros row Hin.
    apply in_map_iff in Hin. destruct Hin as [[k vol] [<- _]].
    unfold diff_row. apply length_map.
Qed.

Lemma grid_price_valid bs_model K option_type vol spot :
  0 < time_to_maturity bs_model -> 0 < K -> 0 < spot -> 0 < vol ->
  grid_price bs_model K option_type vol spot =
  Some (if String.eqb option_type "call"
        then bs_call (time_to_maturity bs_model) K spot vol (interest_rate bs_model)
        else bs_put (time_to_maturity bs_model) K spot vol (interest_rate bs_model)).
Proof.
  intros HT HK HS Hv. unfold grid_price.
  rewrite calculate_prices_valid by (unfold valid; simpl; tauto).
  reflexivity.
Qed.


(** * Attributes along the spot price *)

Lemma attr_at_spot_valid attr self s :
  valid self -> 0 < s ->
  attr_at_spot attr self s =
  attr (priced_of (mkBlackScholes (time_to_maturity self) (strike self) s
                                  (volatility self) (interest_rate self))).
Proof.
  intros (HS & HK & HT & Hv) Hs. unfold attr_at_spot.
  rewrite calculate_prices_valid by (unfold valid; simpl; tauto).
  reflexivity.
Qed.

Lemma attr_at_spot_deriv attr self (g : R -> R) l :
  valid self ->
  (forall s, 0 < s ->
     attr (priced_of (mkBlackScholes (time_to_maturity self) (strike self) s
                                     (volatility self) (interest_rate self)))
     = g s) ->
  derivable_pt_lim g (current_price self) l ->
  derivable_pt_lim (attr_at_spot attr self) (current_price self) l.
Proof.
  intros Hv Hg Hd.
  assert (HS : 0 < current_price self) by apply Hv.
  apply derivable_pt_lim_locally_ext with
    (f := g) (a := current_price self / 2) (b := current_price self + 1);
    [lra | | exact Hd].
  intros s Hs. rewrite attr_at_spot_valid by (trivial; lra).
  symmetry. apply Hg. lra.
Qed.


(** * Floats: where numpy leaves the real numbers *)

(** ** The finite case *)

Lemma finite_Real x : finite (Real x) x.
Proof. left. reflexivity. Qed.

Lemma finite_value a x : finite a x -> value a = x.
Proof. intros [-> | [-> ->]]; reflexivity. Qed.

Lemma finite_is_zero a x : finite a x -> is_zero a = true <-> x = 0.
Proof.
  intros [-> | [-> ->]]; cbn; [| tauto].
  destruct (Req_dec_T x 0); split; intros H; try discriminate; tauto.
Qed.

Lemma finite_zero neg : finite (zero neg) 0.
Proof. destruct neg; [right | left]; auto. Qed.

Lemma to_cell_finite a x : finite a x -> to_cell a = Some x.
Proof. intros [-> | [-> ->]]; reflexivity. Qed.

Lemma fopp_finite a x : finite a x -> finite (fopp a) (- x).
Proof.
  intros [-> | [-> ->]]; cbn.
  - destruct (Req_dec_T x 0) as [-> | Hx]; [right | left]; auto with real.
  - left. f_equal. lra.
Qed.

Lemma fadd_finite a b x y : finite a x -> finite b y -> finite (fadd a b) (x + y).
Proof.
  intros [-> | [-> ->]] [-> | [-> ->]]; cbn.
  - left; reflexivity.
  - left; reflexivity.
  - left; reflexivity.
  - right; split; [reflexivity | lra].
Qed.

Lemma fsub_finite a b x y : finite a x -> finite b y -> finite (fsub a b) (x - y).
Proof.
  intros Ha Hb. unfold fsub, Rminus. apply fadd_finite; [exact Ha |].
  apply fopp_finite, Hb.
Qed.

Lemma fmul_finite a b x y : finite a x -> finite b y -> finite (fmul a b) (x * y).
Proof.
  intros Ha Hb.
  assert (Hza := finite_is_zero a x Ha). assert (Hzb := finite_is_zero b y Hb).
  assert (Hva := finite_value a x Ha). assert (Hvb := finite_value b y Hb).
  assert (E : fmul a b =
              if orb (is_zero a) (is_zero b)
              then zero (xorb (negative a) (negative b))
              else Real (value a * value b)).
  { destruct Ha as [-> | [-> _]], Hb as [-> | [-> _]]; reflexivity. }
  rewrite E. destruct (is_zero a) eqn:Za.
  - assert (Hx : x = 0) by (apply Hza; reflexivity). rewrite Hx.
    cbn [orb]. rewrite Rmult_0_l. apply finite_zero.
  - destruct (is_zero b) eqn:Zb.
    + assert (Hy : y = 0) by (apply Hzb; reflexivity). rewrite Hy.
      cbn [orb]. rewrite Rmult_0_r. apply finite_zero.
    + cbn [orb]. rewrite Hva, Hvb. left. reflexivity.
Qed.

Lemma fdiv_finite a b x y :
  finite a x -> finite b y -> y <> 0 -> finite (fdiv a b) (x / y).
Proof.
  intros Ha Hb Hy.
  assert (Hza := finite_is_zero a x Ha). assert (Hzb := finite_is_zero b y Hb).
  assert (Hva := finite_value a x Ha). assert (Hvb := finite_value b y Hb).
  assert (E : fdiv a b =
              if is_zero b
              then (if is_zero a then NaN
                    else infinity (xorb (negative a) (negative b)))
              else if is_zero a then zero (xorb (negative a) (negative b))
              else Real (value a / value b)).
  { destruct Ha as [-> | [-> _]], Hb as [-> | [-> _]]; reflexivity. }
  rewrite E. destruct (is_zero b) eqn:Zb.
  - exfalso. apply Hy, Hzb. reflexivity.
  - destruct (is_zero a) eqn:Za.
    + assert (Hx : x = 0) by (apply Hza; reflexivity). rewrite Hx.
      unfold Rdiv. rewrite Rmult_0_l. apply finite_zero.
    + rewrite Hva, Hvb. left. reflexivity.
Qed.

Lemma flog_finite a x : finite a x -> 0 < x -> finite (flog a) (ln x).
Proof.
  intros [-> | [-> ->]] Hx; [| lra].
  cbn. destruct (Rlt_dec 0 x); [left; reflexivity | contradiction].
Qed.

Lemma fsqrt_finite a x : finite a x -> 0 <= x -> finite (fsqrt a) (sqrt x).
Proof.
  intros [-> | [-> ->]] Hx; cbn.
  - destruct (Rle_dec 0 x); [left; reflexivity | contradiction].
  - right. split; [reflexivity | apply sqrt_0].
Qed.

Lemma fexp_finite a x : finite a x -> finite (fexp a) (exp x).
Proof.
  intros [-> | [-> ->]]; cbn; left; [reflexivity |].
  now rewrite exp_0.
Qed.

Lemma fcdf_finite a x : finite a x -> finite (fcdf a) (norm_cdf x).
Proof. intros [-> | [-> ->]]; cbn; left; reflexivity. Qed.

Lemma fpdf_finite a x : finite a x -> finite (fpdf a) (norm_pdf x).
Proof. intros [-> | [-> ->]]; cbn; left; reflexivity. Qed.

Create HintDb float.

#[export] Hint Resolve finite_Real fopp_finite fadd_finite fsub_finite
  fmul_finite fexp_finite fcdf_finite fpdf_finite : float.

(** On the inputs where every operation has a real value the floats are
    the real numbers of [calculate_prices]. *)
Lemma calculate_prices_np_in_domain self :
  in_domain self ->
  exists attrs c p,
    calculate_prices_np self = (attrs, (c, p)) /\
    c = call_price_np attrs /\ p = put_price_np attrs /\
    finite (call_price_np attrs) (call_price (priced_of self)) /\
    finite (put_price_np attrs) (put_price (priced_of self)) /\
    finite (call_delta_np attrs) (call_delta (priced_of self)) /\
    finite (put_delta_np attrs) (put_delta (priced_of self)) /\
    finite (call_gamma_np attrs) (call_gamma (priced_of self)) /\
    finite (put_gamma_np attrs) (put_gamma (priced_of self)).
Proof.
  intros (HK & Hq & HT & Hs).
  destruct self as [T K S sigma r]. cbn in HK, Hq, HT, Hs.
  unfold calculate_prices_np.
  cbn [time_to_maturity strike current_price volatility interest_rate].
  assert (Hsq : 0 < sqrt T) by (apply sqrt_lt_R0; exact HT).
  assert (Hden : finite (fmul (Real sigma) (fsqrt (Real T))) (sigma * sqrt T)).
  { apply fmul_finite; [apply finite_Real |].
    apply fsqrt_finite; [apply finite_Real | lra]. }
  assert (Hd1 : finite
            (fdiv (fadd (flog (fdiv (Real S) (Real K)))
                        (fmul (fadd (Real r)
                                 (fmul (Real 0.5) (fmul (Real sigma) (Real sigma))))
                              (Real T)))
                  (fmul (Real sigma) (fsqrt (Real T))))
            (bs_d1 T K S sigma r)).
  { unfold bs_d1. apply fdiv_finite; [| exact Hden |].
    - apply fadd_finite.
      + apply flog_finite; [| exact Hq].
        apply fdiv_finite; auto with float.
      + replace ((r + 0.5 * sigma ^ 2) * T)
          with ((r + 0.5 * (sigma * sigma)) * T) by ring.
        auto 10 with float.
    - apply Rmult_integral_contrapositive_currified; lra. }
  set (d1f := fdiv _ _) in *.
  assert (Hd2 : finite (fsub d1f (fmul (Real sigma) (fsqrt (Real T))))
                       (bs_d2 T K S sigma r)).
  { unfold bs_d2. apply fsub_finite; assumption. }
  set (d2f := fsub d1f _) in *.
  assert (Hdisc : finite (fmul (Real K) (fexp (fopp (fmul (Real r) (Real T)))))
                         (K * exp (- (r * T)))) by auto 10 with float.
  eexists _, _, _. split; [reflexivity |].
  cbn [call_price_np put_price_np call_delta_np put_delta_np call_gamma_np
       put_gamma_np priced_of call_price put_price call_delta put_delta
       call_gamma put_gamma d1 time_to_maturity strike current_price
       volatility interest_rate].
  split; [reflexivity |]. split; [reflexivity |].
  assert (Hg : finite (fdiv (fpdf d1f)
                         (fmul (fmul (Real K) (Real sigma)) (fsqrt (Real T))))
                      (norm_pdf (bs_d1 T K S sigma r) / (K * sigma * sqrt T))).
  { apply fdiv_finite; [auto with float | |].
    - apply fmul_finite; [auto with float |].
      apply fsqrt_finite; [apply finite_Real | lra].
    - repeat apply Rmult_integral_contrapositive_currified; lra. }
  repeat split; try exact Hg; unfold bs_call, bs_put; auto 10 with float.
Qed.

(** ** Infinities *)

Lemma calculate_prices_np_prices T K spot sigma r :
  snd (calculate_prices_np (mkBlackScholes T K spot sigma r)) =
  np_prices T K spot sigma r (np_d1 T K spot sigma r).
Proof. reflexivity. Qed.

Lemma finite_eq a x y : finite a x -> x = y -> finite a y.
Proof. intros H <-. exact H. Qed.

Lemma fdiv_finite_by_zero a x :
  finite a x -> x <> 0 ->
  fdiv a (Real 0) = if Rlt_dec x 0 then NegInf else PosInf.
Proof.
  intros [-> | [-> ->]] Hx; [| contradiction].
  cbn. destruct (Req_dec_T 0 0) as [_ | H]; [| contradiction].
  destruct (Req_dec_T x 0); [contradiction |].
  destruct (Rlt_dec x 0); destruct (Rlt_dec 0 0); try lra; reflexivity.
Qed.

Lemma fmul_pos_zero sigma : 0 <= sigma -> fmul (Real sigma) (Real 0) = Real 0.
Proof.
  intros Hs. cbn.
  destruct (Req_dec_T 0 0) as [_ | H]; [| contradiction].
  rewrite Bool.orb_true_r.
  destruct (Rlt_dec sigma 0); [lra |].
  destruct (Rlt_dec 0 0); [lra | reflexivity].
Qed.

Lemma fsqrt_zero : fsqrt (Real 0) = Real 0.
Proof.
  cbn. destruct (Rle_dec 0 0); [now rewrite sqrt_0 | lra].
Qed.

(** The denominator of [d1] when the volatility or the time to maturity is
    zero: the positive zero. *)
Lemma np_den_zero T sigma :
  0 <= T -> 0 <= sigma -> sigma = 0 \/ T = 0 ->
  fmul (Real sigma) (fsqrt (Real T)) = Real 0.
Proof.
  intros HT Hs Hz. unfold fsqrt.
  destruct (Rle_dec 0 T) as [_ | H]; [| contradiction].
  assert (Hsq : 0 <= sqrt T) by apply sqrt_pos.
  assert (Hprod : sigma = 0 \/ sqrt T = 0).
  { destruct Hz as [-> | ->]; [left; reflexivity | right; apply sqrt_0]. }
  unfold fmul, is_zero, negative, value.
  destruct (Rlt_dec sigma 0); [lra |].
  destruct (Rlt_dec (sqrt T) 0); [lra |].
  destruct (Req_dec_T sigma 0); cbn [orb xorb zero]; [reflexivity |].
  destruct (Req_dec_T (sqrt T) 0); cbn [orb xorb zero]; [reflexivity |].
  tauto.
Qed.

(** With such a denominator [d1] is an infinity, of the sign of
    [spot - K exp(-rT)]. *)
Lemma np_d1_degenerate T K spot sigma r :
  0 <= T -> 0 <= sigma -> sigma = 0 \/ T = 0 ->
  0 < K -> 0 < spot -> spot <> K * exp (- (r * T)) ->
  np_d1 T K spot sigma r =
  if Rlt_dec spot (K * exp (- (r * T))) then NegInf else PosInf.
Proof.
  intros HT Hs Hz HK HS Hne. unfold np_d1.
  rewrite (np_den_zero T sigma HT Hs Hz).
  assert (Hq : 0 < spot / K) by (apply Rdiv_lt_0_compat; assumption).
  assert (Hnum : finite
            (fadd (flog (fdiv (Real spot) (Real K)))
               (fmul (fadd (Real r) (fmul (Real 0.5) (fmul (Real sigma) (Real sigma))))
                  (Real T)))
            (ln (spot / K) + (r + 0.5 * (sigma * sigma)) * T)).
  { apply fadd_finite; [| auto 10 with float].
    apply flog_finite; [| exact Hq]. apply fdiv_finite; auto with float. lra. }
  assert (Hdrift : (r + 0.5 * (sigma * sigma)) * T = r * T).
  { destruct Hz as [-> | ->]; ring. }
  rewrite Hdrift in Hnum.
  assert (HE : 0 < K * exp (- (r * T)))
    by (apply Rmult_lt_0_compat; [exact HK | apply exp_pos]).
  assert (Hm : ln (spot / K) + r * T = ln (spot / (K * exp (- (r * T))))).
  { replace (spot / (K * exp (- (r * T)))) with (spot / K * exp (r * T)).
    - rewrite ln_mult by (try assumption; apply exp_pos). now rewrite ln_exp.
    - rewrite exp_Ropp. field. split; [| lra].
      apply Rgt_not_eq, exp_pos. }
  assert (Hratio : 0 < spot / (K * exp (- (r * T))))
    by (apply Rdiv_lt_0_compat; assumption).
  assert (Hcancel : spot / (K * exp (- (r * T))) * (K * exp (- (r * T))) = spot).
  { generalize HE. generalize (K * exp (- (r * T))). intros E HE'.
    field. lra. }
  destruct (Rlt_dec spot (K * exp (- (r * T)))) as [Hlt | Hge].
  - assert (Hneg : ln (spot / K) + r * T < 0).
    { rewrite Hm, <- ln_1. apply ln_increasing; [exact Hratio |].
      apply (Rmult_lt_reg_r (K * exp (- (r * T)))); [exact HE |].
      rewrite Hcancel. lra. }
    rewrite (fdiv_finite_by_zero _ _ Hnum) by lra.
    destruct (Rlt_dec _ 0); [reflexivity | lra].
  - assert (Hpos : 0 < ln (spot / K) + r * T).
    { rewrite Hm, <- ln_1. apply ln_increasing; [lra |].
      apply (Rmult_lt_reg_r (K * exp (- (r * T)))); [exact HE |].
      rewrite Hcancel. lra. }
    rewrite (fdiv_finite_by_zero _ _ Hnum) by lra.
    destruct (Rlt_dec _ 0); [lra | reflexivity].
Qed.

(** The prices when [d1] is minus infinity: zero for the call, the
    discounted strike minus the spot for the put; and the other way round
    when [d1] is plus infinity. *)
Lemma np_prices_neg_inf T K spot sigma r :
  0 <= T ->
  finite (fst (np_prices T K spot sigma r NegInf)) 0 /\
  finite (snd (np_prices T K spot sigma r NegInf)) (K * exp (- (r * T)) - spot).
Proof.
  intros HT. unfold np_prices.
  assert (Hden : exists y, finite (fmul (Real sigma) (fsqrt (Real T))) y).
  { eexists. apply fmul_finite; [apply finite_Real |].
    apply fsqrt_finite; [apply finite_Real | exact HT]. }
  destruct Hden as [y Hden].
  assert (Hd2 : fsub NegInf (fmul (Real sigma) (fsqrt (Real T))) = NegInf).
  { destruct Hden as [-> | [-> _]]; cbn; [| reflexivity].
    destruct (Req_dec_T y 0); reflexivity. }
  rewrite Hd2. cbn [fst snd fcdf fopp]. split.
  - apply (finite_eq _ (spot * 0 - K * exp (- (r * T)) * 0));
      [auto 10 with float | ring].
  - apply (finite_eq _ (K * exp (- (r * T)) * 1 - spot * 1));
      [auto 10 with float | ring].
Qed.

Lemma np_prices_pos_inf T K spot sigma r :
  0 <= T ->
  finite (fst (np_prices T K spot sigma r PosInf)) (spot - K * exp (- (r * T))) /\
  finite (snd (np_prices T K spot sigma r PosInf)) 0.
Proof.
  intros HT. unfold np_prices.
  assert (Hden : exists y, finite (fmul (Real sigma) (fsqrt (Real T))) y).
  { eexists. apply fmul_finite; [apply finite_Real |].
    apply fsqrt_finite; [apply finite_Real | exact HT]. }
  destruct Hden as [y Hden].
  assert (Hd2 : fsub PosInf (fmul (Real sigma) (fsqrt (Real T))) = PosInf).
  { destruct Hden as [-> | [-> _]]; cbn; [| reflexivity].
    destruct (Req_dec_T y 0); reflexivity. }
  rewrite Hd2. cbn [fst snd fcdf fopp]. split.
  - apply (finite_eq _ (spot * 1 - K * exp (- (r * T)) * 1));
      [auto 10 with float | ring].
  - apply (finite_eq _ (K * exp (- (r * T)) * 0 - spot * 0));
      [auto 10 with float | ring].
Qed.

Lemma fdiv_zero_by_zero b : finite b 0 -> fdiv (Real 0) b = NaN.
Proof.
  intros [-> | [-> _]]; cbn;
    destruct (Req_dec_T 0 0) as [_ | H]; try contradiction; reflexivity.
Qed.

Lemma fadd_neg_inf a x : finite a x -> fadd NegInf a = NegInf.
Proof. intros [-> | [-> _]]; reflexivity. Qed.

Lemma fdiv_neg_inf_pos y : 0 < y -> fdiv NegInf (Real y) = NegInf.
Proof.
  intros Hy. cbn. destruct (Rlt_dec y 0); [lra | reflexivity].
Qed.

Lemma calculate_prices_py_eq self :
  strike self <> 0 ->
  calculate_prices_py self = Some (calculate_prices_np self).
Proof.
  intros HK. unfold calculate_prices_py.
  destruct (Req_dec_T (strike self) 0); [contradiction | reflexivity].
Qed.

(** ** The sweeps on floats *)

Lemma plot_heatmap_np_eq bs_model spot_range vol_range K option_type :
  plot_heatmap_np bs_model spot_range vol_range K option_type =
  Ok (map (fun vol =>
             map (fun spot => to_cell (grid_price_np bs_model K option_type vol spot))
                 spot_range)
          vol_range).
Proof.
  unfold plot_heatmap_np, zeros.
  rewrite (outer_loop_ok (Some 0) _
             (fun _ vol =>
                map (fun spot =>
                       to_cell (grid_price_np bs_model K option_type vol spot))
                    spot_range)
             (length spot_range) vol_range []).
  - cbn [app length]. f_equal.
    apply (map_combine_seq
             (fun vol =>
                map (fun spot =>
                       to_cell (grid_price_np bs_model K option_type vol spot))
                    spot_range)).
  - intros k vol bottom tp _ _.
    apply (inner_loop_ok (Some 0) _
             (fun spot => to_cell (grid_price_np bs_model K option_type vol spot))
             tp bottom (fun _ _ _ => eq_refl) spot_range []).
Qed.

Lemma plot_price_diff_colormap_np_ok bs_model spot_range vol_range
    purchase_price_range option_type :
  (length vol_range <= length purchase_price_range)%nat ->
  plot_price_diff_colormap_np bs_model spot_range vol_range purchase_price_range
    option_type =
  Ok (map (fun '(k, vol) =>
             diff_row_np bs_model spot_range purchase_price_range option_type
               k vol)
          (combine (seq 0 (length vol_range)) vol_range)).
Proof.
  intros Hlen. unfold plot_price_diff_colormap_np, zeros.
  rewrite (outer_loop_ok (Some 0) _
             (diff_row_np bs_model spot_range purchase_price_range option_type)
             (length spot_range) vol_range []); [reflexivity |].
  intros k vol bottom tp Hk Htp.
  assert (Hin : (length tp < length purchase_price_range)%nat).
  { assert (k < length vol_range)%nat by (apply nth_error_Some; congruence).
    simpl in Htp. lia. }
  refine (inner_loop_ok (Some 0) _
            (fun spot =>
               to_cell (fsub (grid_price_np bs_model (strike bs_model)
                                option_type vol spot)
                             (Real (nth (length tp) purchase_price_range 0))))
            tp bottom _ spot_range []).
  intros j x a. rewrite (nth_error_nth' _ 0 Hin). reflexivity.
Qed.

Lemma plot_price_diff_colormap_np_raise bs_model spot_range vol_range
    purchase_price_range option_type :
  (length purchase_price_range < length vol_range)%nat -> spot_range <> [] ->
  plot_price_diff_colormap_np bs_model spot_range vol_range purchase_price_range
    option_type = Raise IndexError.
Proof.
  intros Hlen Hne. unfold plot_price_diff_colormap_np, zeros.
  apply (outer_loop_raise (Some 0) _
           (diff_row_np bs_model spot_range purchase_price_range option_type)
           (length spot_range) IndexError vol_range
           (length purchase_price_range) [] Hlen).
  - intros k vol bottom tp Hk Htp. simpl in Htp.
    assert (Hin : (length tp < length purchase_price_range)%nat) by lia.
    refine (inner_loop_ok (Some 0) _
              (fun spot =>
                 to_cell (fsub (grid_price_np bs_model (strike bs_model)
                                  option_type vol spot)
                               (Real (nth (length tp) purchase_price_range 0))))
              tp bottom _ spot_range []).
    intros j x a. rewrite (nth_error_nth' _ 0 Hin). reflexivity.
  - intros vol a tp Htp. simpl in Htp.
    apply inner_loop_raise; [| exact Hne].
    intros j x a'.
    assert (Hnone : nth_error purchase_price_range (length tp) = None)
      by (apply nth_error_None; lia).
    rewrite Hnone. reflexivity.
Qed.

Lemma get_cell_diff_np bs_model spot_range vol_range purchase_price_range
    option_type i j vol spot p :
  nth_error vol_range i = Some vol -> nth_error spot_range j = Some spot ->
  nth_error purchase_price_range i = Some p ->
  get_cell (map (fun '(k, vol) =>
                   diff_row_np bs_model spot_range purchase_price_range
                               option_type k vol)
                (combine (seq 0 (length vol_range)) vol_range)) i j =
  Some (to_cell (fsub (grid_price_np bs_model (strike bs_model) option_type
                         vol spot) (Real p))).
Proof.
  intros Hi Hj Hp. unfold get_cell.
  rewrite nth_error_map, (nth_error_combine_seq _ 0 i vol Hi).
  cbn [option_map Nat.add]. unfold diff_row_np.
  rewrite nth_error_map, Hj. cbn [option_map].
  rewrite (nth_error_nth _ _ 0 Hp). reflexivity.
Qed.

(** Subtracting a purchase price from a float, cell by cell. *)
Lemma to_cell_fsub a p :
  to_cell (fsub a (Real p)) = option_map (fun x => x - p) (to_cell a).
Proof.
  destruct a as [x | | | |]; cbn; destruct (Req_dec_T p 0) as [-> | Hp]; cbn;
    try reflexivity; f_equal; lra.
Qed.

(** Where every operation has a real value, the float cell is the real
    cell. *)
Lemma grid_price_np_in_domain bs_model K option_type vol spot :
  in_domain (mkBlackScholes (time_to_maturity bs_model) K spot vol
                            (interest_rate bs_model)) ->
  to_cell (grid_price_np bs_model K option_type vol spot) =
  grid_price bs_model K option_type vol spot.
Proof.
  intros Hd. unfold grid_price, grid_price_np.
  rewrite (calculate_prices_in_domain _ Hd).
  destruct (calculate_prices_np_in_domain _ Hd)
    as (attrs & c & p & -> & _ & _ & Hc & Hp & _).
  unfold predicted_price_np, predicted_price.
  destruct (String.eqb option_type "call"); apply to_cell_finite; assumption.
Qed.

(** The prices when the volatility or the time to maturity is zero: the
    payoffs at the discounted strike. *)
Lemma np_prices_degenerate T K spot sigma r :
  0 <= T -> 0 <= sigma -> sigma = 0 \/ T = 0 ->
  0 < K -> 0 < spot -> spot <> K * exp (- (r * T)) ->
  finite (fst (np_prices T K spot sigma r (np_d1 T K spot sigma r)))
         (Rmax (spot - K * exp (- (r * T))) 0) /\
  finite (snd (np_prices T K spot sigma r (np_d1 T K spot sigma r)))
         (Rmax (K * exp (- (r * T)) - spot) 0).
Proof.
  intros HT Hs Hz HK HS Hne.
  rewrite (np_d1_degenerate T K spot sigma r HT Hs Hz HK HS Hne).
  destruct (Rlt_dec spot (K * exp (- (r * T)))) as [Hlt | Hge].
  - destruct (np_prices_neg_inf T K spot sigma r HT) as [Hc Hp]. split.
    + apply (finite_eq _ _ _ Hc). rewrite Rmax_right; lra.
    + apply (finite_eq _ _ _ Hp). rewrite Rmax_left; lra.
  - destruct (np_prices_pos_inf T K spot sigma r HT) as [Hc Hp]. split.
    + apply (finite_eq _ _ _ Hc). rewrite Rmax_left; lra.
    + apply (finite_eq _ _ _ Hp). rewrite Rmax_right; lra.
Qed.

(** A grid cell at expiry. *)
Lemma grid_price_np_expiry bs_model K option_type vol spot :
  time_to_maturity bs_model = 0 ->
  0 < vol -> 0 < K -> 0 < spot -> spot <> K ->
  finite (grid_price_np bs_model K option_type vol spot)
         (if String.eqb option_type "call" then Rmax (spot - K) 0
          else Rmax (K - spot) 0).
Proof.
  intros HT Hv HK HS Hne. unfold grid_price_np. rewrite HT.
  assert (Hexp : K * exp (- (interest_rate bs_model * 0)) = K)
    by (rewrite Rmult_0_r, Ropp_0, exp_0; ring).
  destruct (np_prices_degenerate 0 K spot vol (interest_rate bs_model)
              (Rle_refl 0) ltac:(lra) (or_intror eq_refl) HK HS
              ltac:(rewrite Hexp; exact Hne))
    as [Hc Hp].
  rewrite Hexp in Hc, Hp.
  unfold predicted_price_np, calculate_prices_np.
  cbn [call_price_np put_price_np time_to_maturity strike current_price
       volatility interest_rate].
  destruct (String.eqb option_type "call"); assumption.
Qed.


(** * The definitions on small inputs *)

Example py_div_by_zero x : py_div x 0 = None.
Proof. unfold py_div. destruct (Req_dec_T 0 0); [reflexivity | contradiction]. Qed.

Example np_log_of_zero : np_log 0 = None.
Proof. unfold np_log. destruct (Rlt_dec 0 0); [lra | reflexivity]. Qed.

Example np_sqrt_of_negative : np_sqrt (-1) = None.
Proof. unfold np_sqrt. destruct (Rle_dec 0 (-1)); [lra | reflexivity]. Qed.

Example calculate_prices_zero_strike :
  calculate_prices (mkBlackScholes 1 0 100 0.2 0.05) = None.
Proof. apply calculate_prices_outside. unfold in_domain. simpl. tauto. Qed.

Example calculate_prices_zero_maturity :
  calculate_prices (mkBlackScholes 0 100 100 0.2 0.05) = None.
Proof. apply calculate_prices_outside. unfold in_domain. simpl. lra. Qed.

Example at_the_money_zero_drift_d1 :
  d1 (mkBlackScholes 1 100 100 0.2 (-0.02)) = 0.
Proof.
  unfold d1, bs_d1. simpl.
  replace (100 / 100) with 1 by lra. rewrite ln_1, sqrt_1. lra.
Qed.

Example zeros_2_3 :
  zeros 2 3 = [[Some 0; Some 0; Some 0]; [Some 0; Some 0; Some 0]].
Proof. reflexivity. Qed.

Example set_cell_inside :
  set_cell (zeros 2 2) 1 0 (Some 7) = [[Some 0; Some 0]; [Some 7; Some 0]].
Proof. reflexivity. Qed.

Example set_cell_outside : set_cell (zeros 2 2) 2 0 (Some 7) = zeros 2 2.
Proof. reflexivity. Qed.

Example plot_heatmap_no_volatility bs_model K :
  plot_heatmap bs_model [90; 110] [] K "call" = Ok [].
Proof. reflexivity. Qed.

Example plot_heatmap_no_spot bs_model K :
  plot_heatmap bs_model [] [0.1; 0.3] K "call" = Ok [[]; []].
Proof. reflexivity. Qed.

Example plot_price_diff_colormap_short_no_spot bs_model :
  plot_price_diff_colormap bs_model [] [0.1; 0.3] [8] "put" = Ok [[]; []].
Proof. reflexivity. Qed.

Example plot_price_diff_colormap_short bs_model :
  plot_price_diff_colormap bs_model [90] [0.1; 0.3] [8] "put"
  = Raise IndexError.
Proof. apply plot_price_diff_colormap_raise; [simpl; lia | discriminate]. Qed.

Example fdiv_one_by_zero : fdiv (Real 1) (Real 0) = PosInf.
Proof.
  cbn. destruct (Req_dec_T 0 0); [| contradiction].
  destruct (Req_dec_T 1 0); [lra |].
  destruct (Rlt_dec 1 0); [lra |]. destruct (Rlt_dec 0 0); [lra | reflexivity].
Qed.

Example fdiv_zero_by_zero_nan : fdiv (Real 0) (Real 0) = NaN.
Proof. apply fdiv_zero_by_zero, finite_Real. Qed.

Example flog_of_zero : flog (Real 0) = NegInf.
Proof.
  cbn. destruct (Rlt_dec 0 0); [lra |].
  destruct (Req_dec_T 0 0); [reflexivity | contradiction].
Qed.

Example flog_of_negative : flog (Real (-1)) = NaN.
Proof.
  cbn. destruct (Rlt_dec 0 (-1)); [lra |].
  destruct (Req_dec_T (-1) 0); [lra | reflexivity].
Qed.

Example fsqrt_of_negative : fsqrt (Real (-1)) = NaN.
Proof. cbn. destruct (Rle_dec 0 (-1)); [lra | reflexivity]. Qed.

Example fmul_negative_by_zero : fmul (Real (-1)) (Real 0) = NegZero.
Proof.
  cbn. destruct (Req_dec_T 0 0); [| contradiction].
  rewrite Bool.orb_true_r.
  destruct (Rlt_dec (-1) 0); [| lra]. destruct (Rlt_dec 0 0); [lra | reflexivity].
Qed.

Example fsub_of_infinities : fsub PosInf PosInf = NaN.
Proof. reflexivity. Qed.

Example fcdf_at_infinities : fcdf NegInf = Real 0 /\ fcdf PosInf = Real 1.
Proof. split; reflexivity. Qed.

Example calculate_prices_py_zero_strike :
  calculate_prices_py (mkBlackScholes 1 0 100 0.2 0.05) = None.
Proof.
  unfold calculate_prices_py. cbn [strike].
  destruct (Req_dec_T 0 0); [reflexivity | contradiction].
Qed.

Example plot_heatmap_np_no_spot bs_model K :
  plot_heatmap_np bs_model [] [0.1; 0.3] K "call" = Ok [[]; []].
Proof. reflexivity. Qed.

(** * The pricer: parity, Greeks, domain, monotonicity *)

(** C1 (put-call parity).  On every valid input ([current_price], [strike],
    [time_to_maturity] and [volatility] positive, any [interest_rate])
    [calculate_prices] returns a pair [(call_price, put_price)], the same two
    values it stores on [self], and
    [call_price - put_price = S - K * exp (- r T)]. *)
Theorem put_call_parity (self : BlackScholes) :
  valid self ->
  exists attrs c p,
    calculate_prices self = Some (attrs, (c, p)) /\
    c = call_price attrs /\ p = put_price attrs /\
    c - p = current_price self
            - strike self * exp (- (interest_rate self * time_to_maturity self)).
Proof.
  intros Hv. rewrite (calculate_prices_valid self Hv).
  eexists _, _, _. repeat split. cbn [priced_of call_price put_price].
  apply bs_parity.
Qed.

Lemma put_call_parity_witness :
  exists attrs c p,
    calculate_prices (mkBlackScholes 1 100 100 0.2 0.05) = Some (attrs, (c, p)) /\
    c = call_price attrs /\ p = put_price attrs /\
    c - p = 100 - 100 * exp (- (0.05 * 1)).
Proof.
  apply (put_call_parity (mkBlackScholes 1 100 100 0.2 0.05)).
  unfold valid; simpl; lra.
Defined.

(** C2 (gamma), the code at a failing input.  For
    [BlackScholes(time_to_maturity=1, strike=50, current_price=100,
    volatility=0.2, interest_rate=0.05)] the stored [call_gamma] is
    [pdf(d1) / (strike * volatility * sqrt T)] (line 82 divides by the strike),
    which is not [pdf(d1) / (current_price * volatility * sqrt T)]. *)
Theorem call_gamma_divides_by_strike :
  let self := mkBlackScholes 1 50 100 0.2 0.05 in
  exists attrs ret,
    calculate_prices self = Some (attrs, ret) /\
    call_gamma attrs = norm_pdf (d1 self) / (50 * 0.2 * sqrt 1) /\
    call_gamma attrs <> norm_pdf (d1 self) / (100 * 0.2 * sqrt 1).
Proof.
  intros self.
  assert (Hv : valid self) by (unfold valid, self; simpl; lra).
  rewrite (calculate_prices_valid self Hv).
  eexists _, _. split; [reflexivity |]. split; [reflexivity |].
  cbn [priced_of call_gamma]. unfold self at 2 3 4.
  cbn [strike volatility time_to_maturity].
  rewrite sqrt_1. generalize (norm_pdf_pos (d1 self)). intros Hp Heq.
  lra.
Qed.

(** C3 (put delta), the code at a failing input.  For
    [BlackScholes(time_to_maturity=1, strike=100, current_price=100,
    volatility=0.2, interest_rate=0.05)] the stored [put_delta] is
    [1 - cdf(d1)] (line 81): it is positive, and differs from
    [cdf(d1) - 1]. *)
Theorem put_delta_is_positive :
  let self := mkBlackScholes 1 100 100 0.2 0.05 in
  exists attrs ret,
    calculate_prices self = Some (attrs, ret) /\
    put_delta attrs = 1 - norm_cdf (d1 self) /\
    0 < put_delta attrs /\
    put_delta attrs <> norm_cdf (d1 self) - 1.
Proof.
  intros self.
  assert (Hv : valid self) by (unfold valid, self; simpl; lra).
  rewrite (calculate_prices_valid self Hv).
  eexists _, _. split; [reflexivity |]. split; [reflexivity |].
  cbn [priced_of put_delta].
  generalize (norm_cdf_bounds (d1 self)). lra.
Qed.

(** C8, the claim refuted.  Were every input with a non-positive [strike],
    [current_price], [volatility] or [time_to_maturity] rejected, no price
    would come out of [BlackScholes(1, 100, 100, -0.2, 0.05)]; the pricer
    returns one. *)
Lemma negative_volatility_is_priced :
  ~ (forall self : BlackScholes,
       strike self <= 0 \/ current_price self <= 0 \/
       volatility self <= 0 \/ time_to_maturity self <= 0 ->
       calculate_prices self = None).
Proof.
  intros H.
  specialize (H (mkBlackScholes 1 100 100 (-0.2) 0.05)).
  rewrite calculate_prices_in_domain in H.
  - discriminate H. right; right; left. simpl. lra.
  - unfold in_domain. simpl. lra.
Qed.

(** C8 as amended.  [calculate_prices] checks nothing.  An input with
    [strike <> 0], [current_price / strike > 0], [time_to_maturity > 0] and
    [volatility <> 0] is priced by the closed form, whether or not its
    parameters are positive: a negative volatility is, and so is a negative
    strike with a negative spot.  Nothing is raised on the way. *)
Theorem calculate_prices_validates_nothing (self : BlackScholes) :
  strike self <> 0 -> 0 < current_price self / strike self ->
  0 < time_to_maturity self -> volatility self <> 0 ->
  exists attrs c p,
    calculate_prices self = Some (attrs, (c, p)) /\
    c = call_price attrs /\ p = put_price attrs /\
    c = bs_call (time_to_maturity self) (strike self) (current_price self)
                (volatility self) (interest_rate self) /\
    p = bs_put (time_to_maturity self) (strike self) (current_price self)
               (volatility self) (interest_rate self) /\
    exists attrs_np c_np p_np,
      calculate_prices_py self = Some (attrs_np, (c_np, p_np)) /\
      finite c_np c /\ finite p_np p.
Proof.
  intros HK Hq HT Hs.
  assert (Hd : in_domain self) by (unfold in_domain; tauto).
  rewrite (calculate_prices_in_domain self Hd).
  eexists _, _, _. split; [reflexivity |].
  split; [reflexivity |]. split; [reflexivity |].
  split; [reflexivity |]. split; [reflexivity |].
  rewrite (calculate_prices_py_eq self HK).
  destruct (calculate_prices_np_in_domain self Hd)
    as (attrs & c & p & -> & -> & -> & Hc & Hp & _).
  eexists _, _, _. split; [reflexivity |]. split; assumption.
Qed.

Lemma calculate_prices_validates_nothing_witness :
  exists attrs c p,
    calculate_prices (mkBlackScholes 1 (-100) (-100) 0.2 0.05)
    = Some (attrs, (c, p)) /\
    c = call_price attrs /\ p = put_price attrs /\
    c = bs_call 1 (-100) (-100) 0.2 0.05 /\
    p = bs_put 1 (-100) (-100) 0.2 0.05 /\
    exists attrs_np c_np p_np,
      calculate_prices_py (mkBlackScholes 1 (-100) (-100) 0.2 0.05)
      = Some (attrs_np, (c_np, p_np)) /\
      finite c_np c /\ finite p_np p.
Proof.
  apply (calculate_prices_validates_nothing
           (mkBlackScholes 1 (-100) (-100) 0.2 0.05)); simpl; lra.
Defined.



(** * The sweeps: cells, shape, errors *)

(** C4 (sweep cells).  [plot_heatmap] returns an array whose cell [[i][j]] is
    the price [calculate_prices] gives for the base model's
    [time_to_maturity] and [interest_rate], the supplied strike,
    [current_price = spot_range[j]] and [volatility = vol_range[i]]: the call
    price when [option_type] is ["call"], the put price otherwise. *)
Theorem sweep_cell bs_model spot_range vol_range K option_type i j vol spot :
  nth_error vol_range i = Some vol ->
  nth_error spot_range j = Some spot ->
  exists price_diffs,
    plot_heatmap bs_model spot_range vol_range K option_type = Ok price_diffs /\
    get_cell price_diffs i j =
    Some match calculate_prices
                 (mkBlackScholes (time_to_maturity bs_model) K spot vol
                                 (interest_rate bs_model)) with
         | Some (attrs, _) =>
             Some (if String.eqb option_type "call" then call_price attrs
                   else put_price attrs)
         | None => None
         end.
Proof.
  intros Hi Hj. rewrite plot_heatmap_eq. eexists. split; [reflexivity |].
  apply (get_cell_map_map (grid_price bs_model K option_type)); assumption.
Qed.

Lemma sweep_cell_witness :
  exists price_diffs,
    plot_heatmap (mkBlackScholes 1 100 100 0.2 0.05) [90; 110] [0.1; 0.3] 95
                 "put" = Ok price_diffs /\
    get_cell price_diffs 1 0 =
    Some match calculate_prices (mkBlackScholes 1 95 90 0.3 0.05) with
         | Some (attrs, _) =>
             Some (if String.eqb "put" "call" then call_price attrs
                   else put_price attrs)
         | None => None
         end.
Proof.
  apply (sweep_cell (mkBlackScholes 1 100 100 0.2 0.05) [90; 110] [0.1; 0.3] 95
           "put" 1 0 0.3 90); reflexivity.
Defined.

(** C5 (difference sweep cells).  With one purchase price per volatility,
    [plot_price_diff_colormap] returns an array whose cell [[i][j]] is the
    price computed for [(vol_range[i], spot_range[j])] (at the base model's
    strike) minus [purchase_price_range[i]].  In particular, on a grid of one
    spot and one volatility with purchase price [p], its single cell is the
    single cell of [plot_heatmap] minus [p], the plain sweep being given the
    base model's strike as at the script's call sites (lines 183 and 218). *)
Theorem difference_sweep_cell :
  (forall bs_model spot_range vol_range purchase_price_range option_type
          i j vol spot p,
     length purchase_price_range = length vol_range ->
     nth_error vol_range i = Some vol ->
     nth_error spot_range j = Some spot ->
     nth_error purchase_price_range i = Some p ->
     exists price_diffs,
       plot_price_diff_colormap bs_model spot_range vol_range
         purchase_price_range option_type = Ok price_diffs /\
       get_cell price_diffs i j =
       Some match calculate_prices
                    (mkBlackScholes (time_to_maturity bs_model)
                       (strike bs_model) spot vol (interest_rate bs_model)) with
            | Some (attrs, _) =>
                Some ((if String.eqb option_type "call" then call_price attrs
                       else put_price attrs) - p)
            | None => None
            end) /\
  (forall bs_model spot vol p option_type,
     exists c,
       plot_heatmap bs_model [spot] [vol] (strike bs_model) option_type
       = Ok [[c]] /\
       plot_price_diff_colormap bs_model [spot] [vol] [p] option_type
       = Ok [[option_map (fun x => x - p) c]]).
Proof.
  split.
  - intros bs_model spot_range vol_range purchase_price_range option_type
           i j vol spot p Hlen Hi Hj Hp.
    rewrite plot_price_diff_colormap_ok by lia.
    eexists. split; [reflexivity |].
    rewrite (get_cell_diff _ _ _ _ _ i j vol spot p Hi Hj Hp).
    unfold grid_price, predicted_price.
    destruct (calculate_prices _) as [[attrs ret] |]; reflexivity.
  - intros bs_model spot vol p option_type.
    rewrite plot_heatmap_eq, plot_price_diff_colormap_ok by (simpl; lia).
    eexists. split; reflexivity.
Qed.

Lemma difference_sweep_cell_witness :
  (exists price_diffs,
     plot_price_diff_colormap (mkBlackScholes 1 100 100 0.2 0.05) [90; 110]
       [0.1; 0.3] [8; 12] "call" = Ok price_diffs /\
     get_cell price_diffs 1 0 =
     Some match calculate_prices (mkBlackScholes 1 100 90 0.3 0.05) with
          | Some (attrs, _) =>
              Some ((if String.eqb "call" "call" then call_price attrs
                     else put_price attrs) - 12)
          | None => None
          end) /\
  (exists c,
     plot_heatmap (mkBlackScholes 1 100 100 0.2 0.05) [90] [0.3] 100 "call"
     = Ok [[c]] /\
     plot_price_diff_colormap (mkBlackScholes 1 100 100 0.2 0.05) [90] [0.3]
       [12] "call" = Ok [[option_map (fun x => x - 12) c]]).
Proof.
  split.
  - apply (proj1 difference_sweep_cell (mkBlackScholes 1 100 100 0.2 0.05)
             [90; 110] [0.1; 0.3] [8; 12] "call"%string 1%nat 0%nat 0.3 90 12);
      reflexivity.
  - apply (proj2 difference_sweep_cell (mkBlackScholes 1 100 100 0.2 0.05)
             90 0.3 12 "call"%string).
Defined.

(** C6 (grid shape).  For a volatility range of length [m] and a spot range
    of length [n], [plot_heatmap] returns an array of [m] rows of [n] cells;
    so does [plot_price_diff_colormap] given one purchase price per
    volatility, and every array it returns has that shape.  Rows follow the
    volatilities and columns the spots (C4). *)
Theorem grid_shape bs_model spot_range vol_range K purchase_price_range
    option_type :
  (exists price_diffs,
     plot_heatmap bs_model spot_range vol_range K option_type = Ok price_diffs /\
     has_shape price_diffs (length vol_range) (length spot_range)) /\
  (length purchase_price_range = length vol_range ->
   exists price_diffs,
     plot_price_diff_colormap bs_model spot_range vol_range
       purchase_price_range option_type = Ok price_diffs /\
     has_shape price_diffs (length vol_range) (length spot_range)) /\
  (forall price_diffs,
     plot_price_diff_colormap bs_model spot_range vol_range
       purchase_price_range option_type = Ok price_diffs ->
     has_shape price_diffs (length vol_range) (length spot_range)).
Proof.
  split; [| split].
  - rewrite plot_heatmap_eq. eexists. split; [reflexivity |].
    apply (has_shape_map_map (grid_price bs_model K option_type)).
  - intros Hlen. rewrite plot_price_diff_colormap_ok by lia.
    eexists. split; [reflexivity | apply has_shape_diff].
  - intros price_diffs.
    destruct (le_lt_dec (length vol_range) (length purchase_price_range))
      as [Hle | Hlt].
    + rewrite plot_price_diff_colormap_ok by exact Hle.
      intros [= <-]. apply has_shape_diff.
    + destruct spot_range as [| spot rest].
      * rewrite plot_price_diff_colormap_no_spots. intros [= <-].
        split; [apply repeat_length |].
        apply Forall_forall. intros row Hin.
        apply repeat_spec in Hin. subst row. reflexivity.
      * rewrite plot_price_diff_colormap_raise by (trivial; discriminate).
        discriminate.
Qed.

Lemma grid_shape_witness :
  exists price_diffs,
    plot_price_diff_colormap (mkBlackScholes 1 100 100 0.2 0.05) [90; 100; 110]
      [0.1; 0.3] [8; 12] "put" = Ok price_diffs /\
    has_shape price_diffs 2 3.
Proof.
  apply (proj1 (proj2 (grid_shape (mkBlackScholes 1 100 100 0.2 0.05)
                         [90; 100; 110] [0.1; 0.3] 100 [8; 12] "put"%string))).
  reflexivity.
Defined.

(** C7, the claim refuted.  Were every purchase-price sequence of another
    length than the volatility range answered by an [IndexError], two
    purchase prices for one volatility would be; the sweep returns an
    array. *)
Lemma longer_reference_is_accepted :
  ~ (forall bs_model spot_range vol_range purchase_price_range option_type,
       length purchase_price_range <> length vol_range ->
       plot_price_diff_colormap bs_model spot_range vol_range
         purchase_price_range option_type = Raise IndexError).
Proof.
  intros H.
  specialize (H (mkBlackScholes 1 100 100 0.2 0.05) [100] [0.2] [8; 12]
                "call"%string).
  rewrite plot_price_diff_colormap_ok in H by (simpl; lia).
  discriminate H. simpl. lia.
Qed.

(** C7 as amended.  [plot_price_diff_colormap] raises [IndexError] exactly
    when there are fewer purchase prices than volatilities and the spot range
    is not empty (the index is read inside the inner loop).  With more
    purchase prices than volatilities it returns the array: the surplus
    entries are never read. *)
Theorem difference_sweep_index_error bs_model spot_range vol_range
    purchase_price_range option_type :
  (plot_price_diff_colormap bs_model spot_range vol_range purchase_price_range
     option_type = Raise IndexError
   <-> (length purchase_price_range < length vol_range)%nat /\
       spot_range <> []) /\
  ((length vol_range < length purchase_price_range)%nat ->
   exists price_diffs,
     plot_price_diff_colormap bs_model spot_range vol_range
       purchase_price_range option_type = Ok price_diffs /\
     has_shape price_diffs (length vol_range) (length spot_range)).
Proof.
  split; [split |].
  - intros Hraise.
    destruct (le_lt_dec (length vol_range) (length purchase_price_range))
      as [Hle | Hlt].
    + rewrite plot_price_diff_colormap_ok in Hraise by exact Hle.
      discriminate.
    + split; [exact Hlt |]. intros ->.
      rewrite plot_price_diff_colormap_no_spots in Hraise. discriminate.
  - intros [Hlt Hne]. apply plot_price_diff_colormap_raise; assumption.
  - intros Hlt. rewrite plot_price_diff_colormap_ok by lia.
    eexists. split; [reflexivity | apply has_shape_diff].
Qed.

Lemma difference_sweep_index_error_witness :
  plot_price_diff_colormap (mkBlackScholes 1 100 100 0.2 0.05) [90; 110]
    [0.1; 0.2; 0.3] [8; 12] "call" = Raise IndexError /\
  exists price_diffs,
    plot_price_diff_colormap (mkBlackScholes 1 100 100 0.2 0.05) [90; 110]
      [0.1] [8; 12] "call" = Ok price_diffs /\
    has_shape price_diffs 1 2.
Proof.
  split.
  - apply (proj1 (difference_sweep_index_error
                    (mkBlackScholes 1 100 100 0.2 0.05) [90; 110]
                    [0.1; 0.2; 0.3] [8; 12] "call"%string)).
    split; [simpl; lia | discriminate].
  - apply (proj2 (difference_sweep_index_error
                    (mkBlackScholes 1 100 100 0.2 0.05) [90; 110]
                    [0.1] [8; 12] "call"%string)).
    simpl. lia.
Defined.

(** C10, the claim refuted.  At expiry ([time_to_maturity = 0]) a call at
    spot [50] is worth [0.0] whether the strike is [95] or [100] ([d1] is
    minus infinity for both).  So the cell of the difference sweep, priced
    at the base model's strike [100], is the cell of the plain sweep
    given the strike [95] minus the purchase price [8], although the two
    strikes differ. *)
Lemma another_strike_same_cell :
  exists diffs prices,
    plot_price_diff_colormap_np (mkBlackScholes 0 100 100 0.2 0.05)
      [50] [0.2] [8] "call" = Ok diffs /\
    plot_heatmap_np (mkBlackScholes 0 100 100 0.2 0.05) [50] [0.2] 95 "call"
      = Ok prices /\
    get_cell prices 0 0 = Some (Some 0) /\
    get_cell diffs 0 0 =
      option_map (option_map (fun x => x - 8)) (get_cell prices 0 0) /\
    95 <> strike (mkBlackScholes 0 100 100 0.2 0.05).
Proof.
  rewrite plot_price_diff_colormap_np_ok by (simpl; lia).
  rewrite plot_heatmap_np_eq.
  eexists _, _. split; [reflexivity |]. split; [reflexivity |].
  cbn [map combine seq length get_cell nth_error diff_row_np nth strike].
  assert (H95 : to_cell (grid_price_np (mkBlackScholes 0 100 100 0.2 0.05) 95
                           "call" 0.2 50) = Some 0).
  { rewrite (to_cell_finite _ _
               (grid_price_np_expiry (mkBlackScholes 0 100 100 0.2 0.05) 95
                  "call" 0.2 50 eq_refl ltac:(lra) ltac:(lra) ltac:(lra)
                  ltac:(lra))).
    cbn [String.eqb Ascii.eqb Bool.eqb]. rewrite Rmax_right by lra.
    reflexivity. }
  assert (H100 : to_cell (grid_price_np (mkBlackScholes 0 100 100 0.2 0.05) 100
                            "call" 0.2 50) = Some 0).
  { rewrite (to_cell_finite _ _
               (grid_price_np_expiry (mkBlackScholes 0 100 100 0.2 0.05) 100
                  "call" 0.2 50 eq_refl ltac:(lra) ltac:(lra) ltac:(lra)
                  ltac:(lra))).
    cbn [String.eqb Ascii.eqb Bool.eqb]. rewrite Rmax_right by lra.
    reflexivity. }
  rewrite to_cell_fsub, H95, H100. cbn [option_map].
  split; [reflexivity |]. split; [reflexivity |]. lra.
Qed.

(** C10 as amended (which strike each sweep prices with).  At a grid point
    [(i, j)] with purchase price [p], the cell of [plot_price_diff_colormap]
    is the price at the base model's [strike] minus [p], and the cell of
    [plot_heatmap] is the price at the strike [K] passed to it.  So the
    first is the second minus [p] when [K] is the base model's strike. *)
Theorem difference_sweep_strike bs_model spot_range vol_range
    purchase_price_range option_type K i j vol spot p :
  (length vol_range <= length purchase_price_range)%nat ->
  nth_error vol_range i = Some vol ->
  nth_error spot_range j = Some spot ->
  nth_error purchase_price_range i = Some p ->
  exists diffs prices,
    plot_price_diff_colormap_np bs_model spot_range vol_range
      purchase_price_range option_type = Ok diffs /\
    plot_heatmap_np bs_model spot_range vol_range K option_type = Ok prices /\
    get_cell diffs i j =
      Some (to_cell
              (fsub (predicted_price_np option_type
                       (calculate_prices_np
                          (mkBlackScholes (time_to_maturity bs_model)
                             (strike bs_model) spot vol
                             (interest_rate bs_model))))
                    (Real p))) /\
    get_cell prices i j =
      Some (to_cell
              (predicted_price_np option_type
                 (calculate_prices_np
                    (mkBlackScholes (time_to_maturity bs_model) K spot vol
                       (interest_rate bs_model))))) /\
    (K = strike bs_model ->
     get_cell diffs i j =
     option_map (option_map (fun x => x - p)) (get_cell prices i j)).
Proof.
  intros Hlen Hi Hj Hp.
  rewrite plot_price_diff_colormap_np_ok by exact Hlen.
  rewrite plot_heatmap_np_eq.
  eexists _, _. split; [reflexivity |]. split; [reflexivity |].
  rewrite (get_cell_diff_np _ _ _ _ _ i j vol spot p Hi Hj Hp).
  rewrite (get_cell_map_map
             (fun vol spot => to_cell (grid_price_np bs_model K option_type vol spot))
             vol_range spot_range i j vol spot Hi Hj).
  split; [reflexivity |]. split; [reflexivity |].
  intros ->. cbn [option_map]. rewrite to_cell_fsub. reflexivity.
Qed.

Lemma difference_sweep_strike_witness :
  exists diffs prices,
    plot_price_diff_colormap_np (mkBlackScholes 1 100 100 0.2 0.05) [90; 110]
      [0.1; 0.3] [8; 12] "call" = Ok diffs /\
    plot_heatmap_np (mkBlackScholes 1 100 100 0.2 0.05) [90; 110] [0.1; 0.3] 95
      "call" = Ok prices /\
    get_cell diffs 1 0 <>
    option_map (option_map (fun x => x - 12)) (get_cell prices 1 0).
Proof.
  destruct (difference_sweep_strike (mkBlackScholes 1 100 100 0.2 0.05)
              [90; 110] [0.1; 0.3] [8; 12] "call" 95 1 0 0.3 90 12)
    as (diffs & prices & Hd & Hp & Hdc & Hpc & _);
    try reflexivity; try (simpl; lia).
  exists diffs, prices. split; [exact Hd |]. split; [exact Hp |].
  rewrite Hdc, Hpc. cbn [option_map time_to_maturity strike interest_rate].
  rewrite to_cell_fsub.
  assert (H95 : to_cell (predicted_price_np "call"
                   (calculate_prices_np (mkBlackScholes 1 95 90 0.3 0.05))) =
                Some (bs_call 1 95 90 0.3 0.05)).
  { transitivity (grid_price (mkBlackScholes 1 100 100 0.2 0.05) 95 "call"
                    0.3 90).
    - apply (grid_price_np_in_domain (mkBlackScholes 1 100 100 0.2 0.05) 95
               "call" 0.3 90).
      unfold in_domain; simpl; lra.
    - rewrite grid_price_valid by (simpl; lra). reflexivity. }
  assert (H100 : to_cell (predicted_price_np "call"
                    (calculate_prices_np (mkBlackScholes 1 100 90 0.3 0.05))) =
                 Some (bs_call 1 100 90 0.3 0.05)).
  { transitivity (grid_price (mkBlackScholes 1 100 100 0.2 0.05) 100 "call"
                    0.3 90).
    - apply (grid_price_np_in_domain (mkBlackScholes 1 100 100 0.2 0.05) 100
               "call" 0.3 90).
      unfold in_domain; simpl; lra.
    - rewrite grid_price_valid by (simpl; lra). reflexivity. }
  rewrite H95, H100. cbn [option_map].
  intros [= Heq].
  assert (H : 100 = 95).
  { apply (bs_call_strike_inj 1 90 0.3 0.05); lra. }
  lra.
Defined.

(** * What the stored Greeks are, as slopes *)

(** X1.  On a valid input the stored [call_delta] is the derivative of the
    call price along the spot price. *)
Theorem call_delta_is_spot_slope (self : BlackScholes) :
  valid self ->
  exists attrs ret,
    calculate_prices self = Some (attrs, ret) /\
    derivable_pt_lim (attr_at_spot call_price self) (current_price self)
                     (call_delta attrs).
Proof.
  intros Hv. rewrite (calculate_prices_valid self Hv).
  eexists _, _. split; [reflexivity |]. cbn [priced_of call_delta].
  apply (attr_at_spot_deriv call_price self
           (fun s => bs_call (time_to_maturity self) (strike self) s
                             (volatility self) (interest_rate self)));
    [exact Hv | reflexivity |].
  destruct Hv as (HS & HK & HT & Hs). apply bs_call_deriv_spot; assumption.
Qed.

Lemma call_delta_is_spot_slope_witness :
  exists attrs ret,
    calculate_prices (mkBlackScholes 1 100 100 0.2 0.05) = Some (attrs, ret) /\
    derivable_pt_lim
      (attr_at_spot call_price (mkBlackScholes 1 100 100 0.2 0.05)) 100
      (call_delta attrs).
Proof.
  apply (call_delta_is_spot_slope (mkBlackScholes 1 100 100 0.2 0.05)).
  unfold valid; simpl; lra.
Defined.

(** X2.  On a valid input the derivative of the put price along the spot
    price is [cdf(d1) - 1], the opposite of the stored [put_delta]. *)
Theorem put_delta_is_negated_spot_slope (self : BlackScholes) :
  valid self ->
  exists attrs ret,
    calculate_prices self = Some (attrs, ret) /\
    derivable_pt_lim (attr_at_spot put_price self) (current_price self)
                     (norm_cdf (d1 self) - 1) /\
    norm_cdf (d1 self) - 1 = - put_delta attrs.
Proof.
  intros Hv. rewrite (calculate_prices_valid self Hv).
  eexists _, _. split; [reflexivity |]. cbn [priced_of put_delta].
  split; [| ring].
  apply (attr_at_spot_deriv put_price self
           (fun s => bs_put (time_to_maturity self) (strike self) s
                            (volatility self) (interest_rate self)));
    [exact Hv | reflexivity |].
  destruct Hv as (HS & HK & HT & Hs).
  apply bs_put_deriv_spot; assumption.
Qed.

Lemma put_delta_is_negated_spot_slope_witness :
  exists attrs ret,
    calculate_prices (mkBlackScholes 1 100 100 0.2 0.05) = Some (attrs, ret) /\
    derivable_pt_lim
      (attr_at_spot put_price (mkBlackScholes 1 100 100 0.2 0.05)) 100
      (norm_cdf (d1 (mkBlackScholes 1 100 100 0.2 0.05)) - 1) /\
    norm_cdf (d1 (mkBlackScholes 1 100 100 0.2 0.05)) - 1 = - put_delta attrs.
Proof.
  apply (put_delta_is_negated_spot_slope (mkBlackScholes 1 100 100 0.2 0.05)).
  unfold valid; simpl; lra.
Defined.

(** X3.  On a valid input the stored [call_gamma] and [put_gamma] are both
    [pdf(d1) / (strike * volatility * sqrt T)], and the derivative of the
    stored [call_delta] along the spot price is
    [pdf(d1) / (current_price * volatility * sqrt T)], that is
    [strike / current_price] times the stored gamma. *)
Theorem call_gamma_is_scaled_delta_slope (self : BlackScholes) :
  valid self ->
  exists attrs ret,
    calculate_prices self = Some (attrs, ret) /\
    put_gamma attrs = call_gamma attrs /\
    call_gamma attrs =
      norm_pdf (d1 self)
      / (strike self * volatility self * sqrt (time_to_maturity self)) /\
    derivable_pt_lim (attr_at_spot call_delta self) (current_price self)
      (norm_pdf (d1 self)
       / (current_price self * volatility self * sqrt (time_to_maturity self))) /\
    norm_pdf (d1 self)
    / (current_price self * volatility self * sqrt (time_to_maturity self))
    = strike self / current_price self * call_gamma attrs.
Proof.
  intros Hv. rewrite (calculate_prices_valid self Hv).
  eexists _, _. split; [reflexivity |].
  cbn [priced_of call_gamma put_gamma]. split; [reflexivity |].
  split; [reflexivity |].
  assert (Hv' := Hv). destruct Hv' as (HS & HK & HT & Hs).
  assert (HsT : 0 < sqrt (time_to_maturity self)) by (apply sqrt_lt_R0; exact HT).
  split.
  - apply (attr_at_spot_deriv call_delta self
             (fun s => norm_cdf (bs_d1 (time_to_maturity self) (strike self) s
                                  (volatility self) (interest_rate self))));
      [exact Hv | reflexivity |].
    apply bs_delta_deriv_spot; assumption.
  - field. repeat split; lra.
Qed.

Lemma call_gamma_is_scaled_delta_slope_witness :
  exists attrs ret,
    calculate_prices (mkBlackScholes 1 50 100 0.2 0.05) = Some (attrs, ret) /\
    put_gamma attrs = call_gamma attrs /\
    call_gamma attrs =
      norm_pdf (d1 (mkBlackScholes 1 50 100 0.2 0.05)) / (50 * 0.2 * sqrt 1) /\
    derivable_pt_lim
      (attr_at_spot call_delta (mkBlackScholes 1 50 100 0.2 0.05)) 100
      (norm_pdf (d1 (mkBlackScholes 1 50 100 0.2 0.05)) / (100 * 0.2 * sqrt 1)) /\
    norm_pdf (d1 (mkBlackScholes 1 50 100 0.2 0.05)) / (100 * 0.2 * sqrt 1)
    = 50 / 100 * call_gamma attrs.
Proof.
  apply (call_gamma_is_scaled_delta_slope (mkBlackScholes 1 50 100 0.2 0.05)).
  unfold valid; simpl; lra.
Defined.

(** * More on the normal law: the upper tail *)




Section GaussLower.
Variable m : nat.
Let n : nat := S m.
Let a : R := sqrt (2 * INR n).





End GaussLower.





Section PriceBounds.
Variables T K spot sigma r : R.
Hypothesis HT : 0 < T.
Hypothesis HK : 0 < K.
Hypothesis Hspot : 0 < spot.
Hypothesis Hsigma : 0 < sigma.





End PriceBounds.

(** * More sensitivities of the two prices *)

(** *** Rescaling spot and strike, negating the volatility *)

Lemma bs_d1_scale T K spot sigma r c :
  c <> 0 -> K <> 0 ->
  bs_d1 T (c * K) (c * spot) sigma r = bs_d1 T K spot sigma r.
Proof.
  intros Hc HK. unfold bs_d1.
  replace (c * spot / (c * K)) with (spot / K) by (field; split; assumption).
  reflexivity.
Qed.



(** *** Sensitivity to the interest rate *)

Section Rate.
Variables T K spot sigma r : R.
Hypothesis HT : 0 < T.
Hypothesis HK : 0 < K.
Hypothesis Hspot : 0 < spot.
Hypothesis Hsigma : 0 < sigma.



End Rate.

Section StrictMonotone.
Variables T K spot sigma r : R.
Hypothesis HT : 0 < T.

Lemma bs_call_spot_incr S1 S2 :
  0 < K -> 0 < sigma -> 0 < S1 -> S1 < S2 ->
  bs_call T K S1 sigma r < bs_call T K S2 sigma r.
Proof.
  intros HK Hs H1 H12.
  apply (mvt_increasing (fun s => bs_call T K s sigma r)
           (fun s => norm_cdf (bs_d1 T K s sigma r))); [| exact H12 |].
  - intros c Hc. apply bs_call_deriv_spot; lra.
  - intros c _. apply norm_cdf_bounds.
Qed.

Lemma bs_put_spot_decr S1 S2 :
  0 < K -> 0 < sigma -> 0 < S1 -> S1 < S2 ->
  bs_put T K S2 sigma r < bs_put T K S1 sigma r.
Proof.
  intros HK Hs H1 H12.
  apply (mvt_decreasing (fun s => bs_put T K s sigma r)
           (fun s => norm_cdf (bs_d1 T K s sigma r) - 1)); [| exact H12 |].
  - intros c Hc. apply bs_put_deriv_spot; lra.
  - intros c _. generalize (norm_cdf_bounds (bs_d1 T K c sigma r)). lra.
Qed.

Lemma bs_vega_pos s : 0 < spot -> 0 < spot * norm_pdf (bs_d1 T K spot s r) * sqrt T.
Proof.
  intros HS. apply Rmult_lt_0_compat; [| apply sqrt_lt_R0; exact HT].
  apply Rmult_lt_0_compat; [exact HS | apply norm_pdf_pos].
Qed.

Lemma bs_call_vol_incr s1 s2 :
  0 < K -> 0 < spot -> 0 < s1 -> s1 < s2 ->
  bs_call T K spot s1 r < bs_call T K spot s2 r.
Proof.
  intros HK HS H1 H12.
  apply (mvt_increasing (fun s => bs_call T K spot s r)
           (fun s => spot * norm_pdf (bs_d1 T K spot s r) * sqrt T));
    [| exact H12 |].
  - intros c Hc. apply bs_call_deriv_vol; lra.
  - intros c _. apply bs_vega_pos. exact HS.
Qed.

Lemma bs_put_vol_incr s1 s2 :
  0 < K -> 0 < spot -> 0 < s1 -> s1 < s2 ->
  bs_put T K spot s1 r < bs_put T K spot s2 r.
Proof.
  intros HK HS H1 H12.
  apply (mvt_increasing (fun s => bs_put T K spot s r)
           (fun s => spot * norm_pdf (bs_d1 T K spot s r) * sqrt T));
    [| exact H12 |].
  - intros c Hc. apply bs_put_deriv_vol; lra.
  - intros c _. apply bs_vega_pos. exact HS.
Qed.


End StrictMonotone.

(** *** Far in the money *)


(** * More on the loops *)

(** Two loop bodies that agree on the indices the loop visits give the same
    loop. *)
Lemma for_enumerate_ext (body1 body2 : nat -> R -> matrix -> result matrix)
    (xs : list R) :
  forall (k : nat) (a : matrix),
    (forall i x a', (k <= i < k + length xs)%nat ->
       body1 i x a' = body2 i x a') ->
    for_enumerate body1 k xs a = for_enumerate body2 k xs a.
Proof.
  induction xs as [| x rest IH]; intros k a Hext; [reflexivity |].
  cbn [for_enumerate]. rewrite Hext by (simpl; lia).
  destruct (body2 k x a) as [a' | e]; [| reflexivity].
  apply IH. intros i y a'' Hi. apply Hext. simpl. lia.
Qed.

Lemma predicted_price_not_call option_type priced :
  option_type <> "call"%string ->
  predicted_price option_type priced = predicted_price "put" priced.
Proof.
  intros Hne. unfold predicted_price.
  destruct priced as [[attrs ret] |]; [| reflexivity].
  apply String.eqb_neq in Hne. rewrite Hne. reflexivity.
Qed.



(** * [numpy.linspace] *)

Lemma length_linspace start stop num : length (linspace start stop num) = num.
Proof. unfold linspace. rewrite length_map, length_seq. reflexivity. Qed.





(** * The pricer: ranges, bounds, symmetries, limits *)

(** X4 (ranges of the stored Greeks).  On a valid input [call_delta] and
    [put_delta] both lie between 0 and 1 and add up to 1, and [call_gamma]
    is not negative. *)
Theorem greeks_ranges (self : BlackScholes) :
  valid self ->
  exists attrs ret,
    calculate_prices self = Some (attrs, ret) /\
    0 <= call_delta attrs <= 1 /\
    0 <= put_delta attrs <= 1 /\
    call_delta attrs + put_delta attrs = 1 /\
    0 <= call_gamma attrs.
Proof.
  intros Hv. rewrite (calculate_prices_valid self Hv).
  eexists _, _. split; [reflexivity |].
  cbn [priced_of call_delta put_delta call_gamma].
  assert (Hb := norm_cdf_bounds (d1 self)).
  destruct Hv as (HS & HK & HT & Hs).
  repeat split; try lra.
  left. apply Rdiv_lt_0_compat; [apply norm_pdf_pos |].
  apply Rmult_lt_0_compat; [| apply sqrt_lt_R0; exact HT].
  apply Rmult_lt_0_compat; assumption.
Qed.

Lemma greeks_ranges_witness :
  exists attrs ret,
    calculate_prices (mkBlackScholes 1 100 100 0.2 0.05) = Some (attrs, ret) /\
    0 <= call_delta attrs <= 1 /\
    0 <= put_delta attrs <= 1 /\
    call_delta attrs + put_delta attrs = 1 /\
    0 <= call_gamma attrs.
Proof.
  apply (greeks_ranges (mkBlackScholes 1 100 100 0.2 0.05)).
  unfold valid; simpl; lra.
Defined.



(** X6 (rescaling spot and strike).  Multiplying [current_price] and
    [strike] of a valid input by the same [c <> 0] multiplies both prices by
    [c], keeps both deltas and divides both gammas by [c]; with [c < 0] the
    (negative) spot and strike are priced all the same. *)
Theorem spot_strike_rescaling (self : BlackScholes) (c : R) :
  valid self -> c <> 0 ->
  exists attrs ret,
    calculate_prices self = Some (attrs, ret) /\
    calculate_prices
      (mkBlackScholes (time_to_maturity self) (c * strike self)
                      (c * current_price self) (volatility self)
                      (interest_rate self)) =
    Some (mkPriced (c * call_price attrs) (c * put_price attrs)
                   (call_delta attrs) (put_delta attrs)
                   (call_gamma attrs / c) (put_gamma attrs / c),
          (c * call_price attrs, c * put_price attrs)).
Proof.
  intros Hv Hc. rewrite (calculate_prices_valid self Hv).
  eexists _, _. split; [reflexivity |].
  destruct Hv as (HS & HK & HT & Hs).
  assert (HsT : 0 < sqrt (time_to_maturity self)) by (apply sqrt_lt_R0; exact HT).
  rewrite calculate_prices_in_domain.
  2:{ unfold in_domain. cbn [strike current_price time_to_maturity volatility].
      repeat split; try lra.
      - apply Rmult_integral_contrapositive_currified; lra.
      - replace (c * current_price self / (c * strike self))
          with (current_price self / strike self) by (field; lra).
        apply Rdiv_lt_0_compat; assumption. }
  unfold priced_of, d1, bs_call, bs_put, bs_d2.
  cbn [strike current_price time_to_maturity volatility interest_rate
       call_price put_price call_delta put_delta call_gamma put_gamma].
  rewrite !bs_d1_scale by lra.
  f_equal. f_equal; [f_equal |]; try ring; try (field; repeat split; lra).
  f_equal; ring.
Qed.

Lemma spot_strike_rescaling_witness :
  exists attrs ret,
    calculate_prices (mkBlackScholes 1 100 100 0.2 0.05) = Some (attrs, ret) /\
    calculate_prices (mkBlackScholes 1 (-1 * 100) (-1 * 100) 0.2 0.05) =
    Some (mkPriced (-1 * call_price attrs) (-1 * put_price attrs)
                   (call_delta attrs) (put_delta attrs)
                   (call_gamma attrs / -1) (put_gamma attrs / -1),
          (-1 * call_price attrs, -1 * put_price attrs)).
Proof.
  apply (spot_strike_rescaling (mkBlackScholes 1 100 100 0.2 0.05) (-1)).
  - unfold valid; simpl; lra.
  - lra.
Defined.



(** X8 (no volatility, or no time left).  With a zero [volatility] or a
    zero [time_to_maturity] (the other one not negative), positive spot and
    strike and [S <> K exp(-rT)], nothing is raised: [d1] is an infinity,
    the prices returned are the payoffs [max (S - K exp(-rT)) 0] and
    [max (K exp(-rT) - S) 0], and the stored gamma is nan. *)
Theorem degenerate_volatility_prices (self : BlackScholes) :
  0 <= time_to_maturity self -> 0 <= volatility self ->
  volatility self = 0 \/ time_to_maturity self = 0 ->
  0 < strike self -> 0 < current_price self ->
  current_price self
  <> strike self * exp (- (interest_rate self * time_to_maturity self)) ->
  exists attrs c p,
    calculate_prices_py self = Some (attrs, (c, p)) /\
    c = call_price_np attrs /\ p = put_price_np attrs /\
    finite c (Rmax (current_price self
                    - strike self
                      * exp (- (interest_rate self * time_to_maturity self))) 0) /\
    finite p (Rmax (strike self
                    * exp (- (interest_rate self * time_to_maturity self))
                    - current_price self) 0) /\
    call_gamma_np attrs = NaN /\ put_gamma_np attrs = NaN.
Proof.
  destruct self as [T K S sigma r].
  cbn [time_to_maturity strike current_price volatility interest_rate].
  intros HT Hs Hz HK HS Hne.
  rewrite calculate_prices_py_eq by (cbn; lra).
  destruct (np_prices_degenerate T K S sigma r HT Hs Hz HK HS Hne) as [Hc Hp].
  eexists _, _, _. split; [reflexivity |].
  split; [reflexivity |]. split; [reflexivity |].
  split; [exact Hc |]. split; [exact Hp |].
  cbn [call_gamma_np put_gamma_np time_to_maturity strike current_price
       volatility interest_rate].
  assert (Hg : fdiv (fpdf (np_d1 T K S sigma r))
                 (fmul (fmul (Real K) (Real sigma)) (fsqrt (Real T))) = NaN).
  { rewrite (np_d1_degenerate T K S sigma r HT Hs Hz HK HS Hne).
    assert (Hpdf : fpdf (if Rlt_dec S (K * exp (- (r * T))) then NegInf
                         else PosInf) = Real 0)
      by (destruct (Rlt_dec S (K * exp (- (r * T)))); reflexivity).
    rewrite Hpdf. apply fdiv_zero_by_zero.
    apply (finite_eq _ (K * sigma * sqrt T)).
    - apply fmul_finite; [auto with float |].
      apply fsqrt_finite; [apply finite_Real | exact HT].
    - destruct Hz as [-> | ->]; [ring | rewrite sqrt_0; ring]. }
  split; exact Hg.
Qed.

Lemma degenerate_volatility_prices_witness :
  exists attrs c p,
    calculate_prices_py (mkBlackScholes 0 100 110 0.2 0.05)
    = Some (attrs, (c, p)) /\
    c = call_price_np attrs /\ p = put_price_np attrs /\
    finite c (Rmax (110 - 100 * exp (- (0.05 * 0))) 0) /\
    finite p (Rmax (100 * exp (- (0.05 * 0)) - 110) 0) /\
    call_gamma_np attrs = NaN /\ put_gamma_np attrs = NaN.
Proof.
  apply (degenerate_volatility_prices (mkBlackScholes 0 100 110 0.2 0.05));
    cbn [time_to_maturity strike current_price volatility interest_rate];
    try lra.
  rewrite Rmult_0_r, Ropp_0, exp_0. lra.
Defined.





(** X18 (a spot of zero).  With [current_price = 0] and positive strike,
    maturity and volatility nothing is raised: the logarithm is minus
    infinity and so is [d1]; the call price, the call delta and the gamma are
    [0], the put delta is [1] and the put price is [K exp(-rT)]. *)
Theorem zero_spot_prices (self : BlackScholes) :
  current_price self = 0 -> 0 < strike self ->
  0 < time_to_maturity self -> 0 < volatility self ->
  exists attrs c p,
    calculate_prices_py self = Some (attrs, (c, p)) /\
    c = call_price_np attrs /\ p = put_price_np attrs /\
    finite c 0 /\
    finite p (strike self
              * exp (- (interest_rate self * time_to_maturity self))) /\
    finite (call_delta_np attrs) 0 /\ finite (put_delta_np attrs) 1 /\
    finite (call_gamma_np attrs) 0 /\ finite (put_gamma_np attrs) 0.
Proof.
  destruct self as [T K S sigma r].
  cbn [time_to_maturity strike current_price volatility interest_rate].
  intros -> HK HT Hs.
  rewrite calculate_prices_py_eq by (cbn; lra).
  assert (HsT : 0 < sqrt T) by (apply sqrt_lt_R0; exact HT).
  assert (Hv : 0 < sigma * sqrt T) by (apply Rmult_lt_0_compat; assumption).
  assert (Hden : fmul (Real sigma) (fsqrt (Real T)) = Real (sigma * sqrt T)).
  { destruct (fmul_finite (Real sigma) (fsqrt (Real T)) sigma (sqrt T)
                (finite_Real _)
                (fsqrt_finite _ _ (finite_Real _) (Rlt_le _ _ HT)))
      as [H | [_ H]]; [exact H | lra]. }
  assert (Hd1 : np_d1 T K 0 sigma r = NegInf).
  { unfold np_d1. rewrite Hden.
    assert (Hq : flog (fdiv (Real 0) (Real K)) = NegInf).
    { destruct (fdiv_finite (Real 0) (Real K) 0 K (finite_Real _)
                  (finite_Real _) ltac:(lra)) as [-> | [-> _]];
        [| reflexivity].
      unfold Rdiv. rewrite Rmult_0_l. cbn.
      destruct (Rlt_dec 0 0); [lra |].
      destruct (Req_dec_T 0 0); [reflexivity | contradiction]. }
    rewrite Hq.
    rewrite (fadd_neg_inf _ ((r + 0.5 * (sigma * sigma)) * T))
      by auto 10 with float.
    apply fdiv_neg_inf_pos, Hv. }
  destruct (np_prices_neg_inf T K 0 sigma r (Rlt_le _ _ HT)) as [Hc Hp].
  eexists _, _, _. split; [reflexivity |].
  split; [reflexivity |]. split; [reflexivity |].
  cbn [call_price_np put_price_np call_delta_np put_delta_np call_gamma_np
       put_gamma_np time_to_maturity strike current_price volatility
       interest_rate].
  change (fdiv (fadd (flog (fdiv (Real 0) (Real K)))
                  (fmul (fadd (Real r)
                           (fmul (Real 0.5) (fmul (Real sigma) (Real sigma))))
                        (Real T)))
               (fmul (Real sigma) (fsqrt (Real T))))
    with (np_d1 T K 0 sigma r).
  rewrite !Hd1. cbn [fcdf fpdf].
  split; [exact Hc |].
  split; [apply (finite_eq _ _ _ Hp); ring |].
  split; [apply finite_Real |].
  split; [apply (finite_eq _ (1 - 0)); [auto with float | ring] |].
  assert (Hg : finite (fdiv (Real 0)
                         (fmul (fmul (Real K) (Real sigma)) (fsqrt (Real T))))
                      0).
  { apply (finite_eq _ (0 / (K * sigma * sqrt T))).
    - apply fdiv_finite; [apply finite_Real | |].
      + apply fmul_finite; [auto with float |].
        apply fsqrt_finite; [apply finite_Real | lra].
      + repeat apply Rmult_integral_contrapositive_currified; lra.
    - unfold Rdiv. ring. }
  split; exact Hg.
Qed.

Lemma zero_spot_prices_witness :
  exists attrs c p,
    calculate_prices_py (mkBlackScholes 1 100 0 0.2 0.05)
    = Some (attrs, (c, p)) /\
    c = call_price_np attrs /\ p = put_price_np attrs /\
    finite c 0 /\
    finite p (100 * exp (- (0.05 * 1))) /\
    finite (call_delta_np attrs) 0 /\ finite (put_delta_np attrs) 1 /\
    finite (call_gamma_np attrs) 0 /\ finite (put_gamma_np attrs) 0.
Proof.
  apply (zero_spot_prices (mkBlackScholes 1 100 0 0.2 0.05));
    cbn [time_to_maturity strike current_price volatility interest_rate];
    try reflexivity; lra.
Defined.

(** * The sweeps: option type, purchase prices, valid grids *)

(** X11 (option type is compared with "call" only).  Any [option_type]
    other than the exact string ["call"] makes both sweeps return what they
    return for ["put"]. *)
Theorem other_option_type_is_put bs_model spot_range vol_range K
    purchase_price_range option_type :
  option_type <> "call"%string ->
  plot_heatmap bs_model spot_range vol_range K option_type =
  plot_heatmap bs_model spot_range vol_range K "put" /\
  plot_price_diff_colormap bs_model spot_range vol_range purchase_price_range
    option_type =
  plot_price_diff_colormap bs_model spot_range vol_range purchase_price_range
    "put".
Proof.
  intros Hne. split.
  - unfold plot_heatmap. apply for_enumerate_ext. intros i vol a _.
    apply for_enumerate_ext. intros j spot a' _. cbv zeta.
    rewrite (predicted_price_not_call option_type _ Hne). reflexivity.
  - unfold plot_price_diff_colormap. apply for_enumerate_ext. intros i vol a _.
    apply for_enumerate_ext. intros j spot a' _. cbv zeta.
    rewrite (predicted_price_not_call option_type _ Hne). reflexivity.
Qed.

Lemma other_option_type_is_put_witness :
  plot_heatmap (mkBlackScholes 1 100 100 0.2 0.05) [90; 110] [0.1; 0.3] 100
    "Call" =
  plot_heatmap (mkBlackScholes 1 100 100 0.2 0.05) [90; 110] [0.1; 0.3] 100
    "put" /\
  plot_price_diff_colormap (mkBlackScholes 1 100 100 0.2 0.05) [90; 110]
    [0.1; 0.3] [8; 12] "Call" =
  plot_price_diff_colormap (mkBlackScholes 1 100 100 0.2 0.05) [90; 110]
    [0.1; 0.3] [8; 12] "put".
Proof.
  apply (other_option_type_is_put (mkBlackScholes 1 100 100 0.2 0.05) [90; 110]
           [0.1; 0.3] 100 [8; 12] "Call").
  discriminate.
Defined.

(** X12 (surplus purchase prices).  [plot_price_diff_colormap] reads one
    purchase price per volatility: cutting [purchase_price_range] down to
    its first [len(vol_range)] entries changes nothing, error included. *)
Theorem surplus_purchase_prices_are_ignored bs_model spot_range vol_range
    purchase_price_range option_type :
  plot_price_diff_colormap bs_model spot_range vol_range purchase_price_range
    option_type =
  plot_price_diff_colormap bs_model spot_range vol_range
    (firstn (length vol_range) purchase_price_range) option_type.
Proof.
  unfold plot_price_diff_colormap. apply for_enumerate_ext. intros i vol a Hi.
  apply for_enumerate_ext. intros j spot a' _. cbv zeta.
  rewrite nth_error_firstn.
  destruct (Nat.ltb_spec i (length vol_range)) as [_ | Hge]; [reflexivity | lia].
Qed.





(** * The script *)


Lemma has_shape_diff_np bs_model spot_range vol_range purchase_price_range
    option_type :
  has_shape (map (fun '(k, vol) =>
                    diff_row_np bs_model spot_range purchase_price_range
                                option_type k vol)
                 (combine (seq 0 (length vol_range)) vol_range))
            (length vol_range) (length spot_range).
Proof.
  split.
  - rewrite length_map, length_combine, length_seq. apply Nat.min_id.
  - apply Forall_forall. intros row Hin.
    apply in_map_iff in Hin. destruct Hin as [[k vol] [<- _]].
    unfold diff_row_np. apply length_map.
Qed.

(** X15 (the script's four arrays).  Whatever the widgets return, the
    script raises in none of its sweeps: it stops on line 184 with
    [ZeroDivisionError] when the strike is [0], and otherwise shows the pair
    returned by [calculate_prices] and draws four arrays of 10 rows and 10
    columns. *)
Theorem script_draws_four_grids (w : Sidebar) :
  (sb_strike w = 0 -> script_np w = None) /\
  (sb_strike w <> 0 ->
   exists attrs page,
     calculate_prices_py (sidebar_model w)
     = Some (attrs, (shown_call_price_np page, shown_put_price_np page)) /\
     script_np w = Some (Ok page) /\
     has_shape (heatmap_fig_call_np page) 10 10 /\
     has_shape (heatmap_fig_put_np page) 10 10 /\
     has_shape (call_diff_colormap_np page) 10 10 /\
     has_shape (put_diff_colormap_np page) 10 10).
Proof.
  unfold script_np, calculate_prices_py. cbv zeta.
  cbn [sidebar_model strike].
  destruct (Req_dec_T (sb_strike w) 0) as [HK | HK].
  - split; [reflexivity | contradiction].
  - split; [contradiction |]. intros _.
    destruct (calculate_prices_np _) as [attrs [c p]] eqn:E.
    rewrite !plot_heatmap_np_eq. cbn [bind_result].
    rewrite !plot_price_diff_colormap_np_ok by (rewrite !length_linspace; lia).
    cbn [bind_result].
    eexists attrs, (mkPageNp c p _ _ _ _).
    split; [reflexivity |]. split; [reflexivity |].
    cbn [heatmap_fig_call_np heatmap_fig_put_np call_diff_colormap_np
         put_diff_colormap_np shown_call_price_np shown_put_price_np].
    assert (Hcast : forall a m n, has_shape a m n -> m = 10%nat -> n = 10%nat ->
                                  has_shape a 10 10)
      by (intros a m n H -> ->; exact H).
    split; [| split; [| split]].
    + eapply Hcast;
        [apply (has_shape_map_map
                  (fun vol spot => to_cell (grid_price_np _ _ _ vol spot))) | |];
        apply length_linspace.
    + eapply Hcast;
        [apply (has_shape_map_map
                  (fun vol spot => to_cell (grid_price_np _ _ _ vol spot))) | |];
        apply length_linspace.
    + eapply Hcast; [apply has_shape_diff_np | |]; apply length_linspace.
    + eapply Hcast; [apply has_shape_diff_np | |]; apply length_linspace.
Qed.

Lemma script_draws_four_grids_witness :
  exists attrs page,
    calculate_prices_py (sidebar_model default_sidebar)
    = Some (attrs, (shown_call_price_np page, shown_put_price_np page)) /\
    script_np default_sidebar = Some (Ok page) /\
    has_shape (heatmap_fig_call_np page) 10 10 /\
    has_shape (heatmap_fig_put_np page) 10 10 /\
    has_shape (call_diff_colormap_np page) 10 10 /\
    has_shape (put_diff_colormap_np page) 10 10.
Proof.
  apply (proj2 (script_draws_four_grids default_sidebar)).
  simpl. lra.
Defined.








